(** * The service worker of the Quang Hugo site ([static/sw.js])

    A shallow embedding of the three listeners of [static/sw.js]
    (install, activate, fetch) over a small model of the browser
    runtime they call into: the origin's [CacheStorage], the network,
    promises and the extendable-event protocol.

    - The cache storage is an ordered list of named namespaces (the
      order is creation order, as [caches.keys()] and [caches.match()]
      observe it); a namespace maps a request URL to the stored response.
    - Synchronous code is a state-and-writer computation [Sync]: it
      threads the cache storage and emits the effects it performs.
    - A promise is the deferred computation of its settlement,
      [Promise A := Sync (Outcome A)]; [then_] and [catch_] are the
      promise combinators of the same names.
    - A dispatched event first runs the listener body to completion and
      only afterwards settles the promises handed to [waitUntil] and
      [respondWith] (run-to-completion of the event loop).

    A request is identified by its URL (no [Vary] header is looked at), a
    response is an immutable record (so [response.clone()] is the
    response itself), and operations that the browser runs in parallel
    are taken in the order in which the worker starts them. *)

From stdpp Require Import base gmap list strings.

Open Scope string_scope.
Open Scope Z_scope.
Open Scope list_scope.

(** ** Responses and requests *)

Inductive ResponseType :=
  | Basic | Cors | Default | Error | Opaque | OpaqueRedirect.

#[global] Instance ResponseType_eq_dec : EqDecision ResponseType.
Proof. solve_decision. Defined.

Record Response := mkResponse {
  status : Z;
  statusText : string;
  type : ResponseType;
  headers : list (string * string);
  body : string
}.

#[global] Instance Response_eq_dec : EqDecision Response.
Proof. solve_decision. Defined.

(** [request.url] is the absolute URL of the request, as a string. *)
Record Request := mkRequest {
  method : string;
  url : string;
  mode : string;
  cache : string
}.

(** [response.ok]: the status is in the range 200-299. *)
Definition ok (r : Response) : bool :=
  bool_decide (200 ≤ status r ≤ 299).

(** ** The cache storage *)

Abbreviation Cache := (gmap string Response).

(** Namespaces in creation order. *)
Abbreviation CacheStorage := (list (string * Cache)).

Module Store.

(** The namespace called [name], if there is one. *)
Fixpoint get (name : string) (cs : CacheStorage) : option Cache :=
  match cs with
  | [] => None
  | (n, c) :: rest => if decide (n = name) then Some c else get name rest
  end.

(** [caches.keys()]: the names, in creation order. *)
Definition keys (cs : CacheStorage) : list string := cs.*1.

(** [caches.open(name)]: an absent namespace is created empty, last. *)
Definition open (name : string) (cs : CacheStorage) : CacheStorage :=
  match get name cs with
  | Some _ => cs
  | None => cs ++ [(name, ∅)]
  end.

(** Apply [f] to the namespace called [name]. *)
Definition update (name : string) (f : Cache → Cache) (cs : CacheStorage)
  : CacheStorage :=
  (λ nc : string * Cache, if decide (nc.1 = name) then (nc.1, f nc.2) else nc) <$> cs.

(** [caches.delete(name)]. *)
Definition delete (name : string) (cs : CacheStorage) : CacheStorage :=
  filter (λ nc : string * Cache, nc.1 ≠ name) cs.

(** [cache.match(url)] on the namespace called [name]. *)
Definition lookup (name url : string) (cs : CacheStorage) : option Response :=
  c ← get name cs; c !! url.

(** [caches.match(url)]: the namespaces are searched in creation order
    and the first stored response for [url] is the result. *)
Fixpoint match_ (u : string) (cs : CacheStorage) : option Response :=
  match cs with
  | [] => None
  | (_, c) :: rest =>
      match c !! u with
      | Some r => Some r
      | None => match_ u rest
      end
  end.

(** Store every [(url, response)] pair of [entries] in a namespace. *)
Definition put_all (entries : list (string * Response)) (c : Cache) : Cache :=
  foldl (λ acc ur, <[ur.1 := ur.2]> acc) c entries.

End Store.

(** ** Effects, outcomes and the environment *)

Inductive Err := NetworkError | StoreError | TypeError.

#[global] Instance Err_eq_dec : EqDecision Err.
Proof. solve_decision. Defined.

(** What a listener does to the outside world, in the order it does it. *)
Inductive Effect :=
  | ConsoleLog (msg : string)
  | ConsoleError (msg : string) (e : Err)
  | SkipWaiting
  | ClientsClaim
  | NetFetch (u : string)
  | CacheOpen (name : string)
  | CacheRead (u : string)
  | CacheWrite (name u : string) (r : Response)
  | CacheDelete (name : string).

#[global] Instance Effect_eq_dec : EqDecision Effect.
Proof. solve_decision. Defined.

(** The effects that read or write an entry of the cache storage. *)
Definition touches_store (e : Effect) : bool :=
  match e with
  | CacheOpen _ | CacheRead _ | CacheWrite _ _ _ | CacheDelete _ => true
  | _ => false
  end.

Definition is_fetch (e : Effect) : bool :=
  match e with NetFetch _ => true | _ => false end.

Definition is_write (e : Effect) : bool :=
  match e with CacheWrite _ _ _ => true | _ => false end.

Inductive Outcome (A : Type) :=
  | Fulfilled (a : A)
  | Rejected (e : Err).
Arguments Fulfilled {A} a.
Arguments Rejected {A} e.

(** The single operations of the cache storage that can fail on their own
    (quota exceeded, storage unavailable). *)
Inductive StoreOp :=
  | OpOpen (name : string)
  | OpKeys
  | OpDelete (name : string)
  | OpMatch (u : string)
  | OpAddAll (name : string)
  | OpPut (name u : string).

(** What the worker does not control: its own origin, the origin the URL
    parser finds in a URL, the network (a URL is answered by a response,
    or the fetch fails), and which store operations fail. *)
Record Env := mkEnv {
  location_origin : string;
  url_origin : string → string;
  network : string → option Response;
  store_fails : StoreOp → bool
}.

(** ** Synchronous code and promises *)

Definition Sync (A : Type) : Type := CacheStorage → A * CacheStorage * list Effect.

Definition ret {A} (a : A) : Sync A := λ cs, (a, cs, []).

Definition bind {A B} (m : Sync A) (k : A → Sync B) : Sync B :=
  λ cs, let '(a, cs1, t1) := m cs in
        let '(b, cs2, t2) := k a cs1 in
        (b, cs2, t1 ++ t2).

Declare Scope sync_scope.
Delimit Scope sync_scope with sync.
Notation "x <- m ;; k" := (bind m (λ x, k))
  (at level 100, m at next level, right associativity) : sync_scope.
Notation "m ;; k" := (bind m (λ _, k))
  (at level 100, right associativity) : sync_scope.
Open Scope sync_scope.

Definition emit (e : Effect) : Sync unit := λ cs, (tt, cs, [e]).

(** [array.map(f)] with a callback that has effects. *)
Fixpoint mapS {A B} (f : A → Sync B) (l : list A) : Sync (list B) :=
  match l with
  | [] => ret []
  | a :: l' => b <- f a ;; bs <- mapS f l' ;; ret (b :: bs)
  end.

(** A promise, as the computation that settles it. *)
Definition Promise (A : Type) : Type := Sync (Outcome A).

Definition resolve {A} (a : A) : Promise A := ret (Fulfilled a).
Definition reject {A} (e : Err) : Promise A := ret (Rejected e).

(** [p.then(f)]: [f] runs on fulfilment, synchronously, and the promise it
    returns is adopted; a rejection passes through. *)
Definition then_ {A B} (p : Promise A) (f : A → Sync (Promise B)) : Promise B :=
  o <- p ;;
  match o with
  | Fulfilled a => q <- f a ;; q
  | Rejected e => reject e
  end.

(** [p.catch(h)]: [h] runs on rejection; a fulfilment passes through. *)
Definition catch_ {A} (p : Promise A) (h : Err → Sync (Promise A)) : Promise A :=
  o <- p ;;
  match o with
  | Fulfilled a => resolve a
  | Rejected e => q <- h e ;; q
  end.

(** [Promise.all(ps)]: every promise of the array has been started and
    settles; the result is rejected as soon as one of them is. *)
Fixpoint Promise_all {A} (ps : list (Promise A)) : Promise (list A) :=
  match ps with
  | [] => resolve []
  | p :: ps' =>
      o <- p ;;
      os <- Promise_all ps' ;;
      ret match o, os with
          | Fulfilled a, Fulfilled l => Fulfilled (a :: l)
          | Rejected e, _ => Rejected e
          | Fulfilled _, Rejected e => Rejected e
          end
  end.

(** A promise that is started and whose result nobody awaits: what it does
    happens, how it settles is not observed. *)
Definition detached {A} (p : Promise A) : Sync unit := p ;; ret tt.

Definition void {A} (p : Promise A) : Promise unit :=
  o <- p ;;
  ret match o with Fulfilled _ => Fulfilled tt | Rejected e => Rejected e end.

(** ** Extendable events *)

(** The promises a listener handed to [event.waitUntil] and, for a fetch
    event, to [event.respondWith]; an answer of [None] is [undefined]. *)
Record Event := mkEvent {
  lifetime : list (Promise unit);
  response : option (Promise (option Response))
}.

Definition waitUntil {A} (event : Event) (p : Promise A) : Sync Event :=
  ret {| lifetime := lifetime event ++ [void p]; response := response event |}.

Definition respondWith (event : Event) (p : Promise (option Response)) : Sync Event :=
  ret {| lifetime := lifetime event; response := Some p |}.

(** The result of dispatching one event: the storage afterwards, the
    effects in order, how the lifetime promises settled, and the answer:
    [None] when the listener did not call [respondWith] (the request is
    passed through to the default path). *)
Record Dispatched := mkDispatched {
  storage : CacheStorage;
  effects : list Effect;
  settled : list (Outcome unit);
  answer : option (Outcome (option Response))
}.

(** The listener body runs to completion; the promises it registered are
    settled afterwards. *)
Definition dispatch (listener : Event → Sync Event) (cs : CacheStorage) : Dispatched :=
  let '(event, cs1, t1) := listener {| lifetime := []; response := None |} cs in
  let '(os, cs2, t2) := mapS (λ p : Promise unit, p) (lifetime event) cs1 in
  match response event with
  | None =>
      {| storage := cs2; effects := t1 ++ t2; settled := os; answer := None |}
  | Some p =>
      let '(o, cs3, t3) := p cs2 in
      {| storage := cs3; effects := t1 ++ t2 ++ t3; settled := os; answer := Some o |}
  end.

(** The install (or activate) step succeeds when every lifetime promise
    is fulfilled. *)
Definition fulfilled {A} (o : Outcome A) : bool :=
  match o with Fulfilled _ => true | Rejected _ => false end.

Definition succeeded (d : Dispatched) : bool := forallb fulfilled (settled d).

(** ** The browser interfaces the worker calls *)

Section Worker.

Variable env : Env.

Definition console_log (msg : string) : Sync unit := emit (ConsoleLog msg).
Definition console_error (msg : string) (e : Err) : Sync unit := emit (ConsoleError msg e).

(** [self.skipWaiting()] and [self.clients.claim()]: the call is what is
    recorded; the promise each returns is not used by the worker. *)
Definition skipWaiting : Sync unit := emit SkipWaiting.
Definition clients_claim : Sync unit := emit ClientsClaim.

(** [new Request(path, { cache })] for an absolute path: the path is
    resolved against the worker's own origin. *)
Definition Request_new (path : string) (cache_mode : string) : Request :=
  {| method := "GET"; url := location_origin env +:+ path;
     mode := "cors"; cache := cache_mode |}.

(** [new Response(body, { status, statusText, headers })]. *)
Definition Response_new (b : string) (st : Z) (text : string)
    (hs : list (string * string)) : Response :=
  {| status := st; statusText := text; type := Default; headers := hs; body := b |}.

(** [fetch(request)]: resolves with the response of the network, which
    is an object (never a falsy value), or rejects. *)
Definition fetch (request : Request) : Promise Response :=
  emit (NetFetch (url request)) ;;
  match network env (url request) with
  | Some r => resolve r
  | None => reject NetworkError
  end.

(** [caches.open(name)]; the handle of a namespace is its name. *)
Definition caches_open (name : string) : Promise string :=
  if store_fails env (OpOpen name) then reject StoreError
  else λ cs, (Fulfilled name, Store.open name cs, [CacheOpen name]).

Definition caches_keys : Promise (list string) :=
  if store_fails env OpKeys then reject StoreError
  else λ cs, (Fulfilled (Store.keys cs), cs, []).

(** [caches.delete(name)] resolves with whether the namespace existed. *)
Definition caches_delete (name : string) : Promise bool :=
  if store_fails env (OpDelete name) then reject StoreError
  else λ cs, (Fulfilled (bool_decide (is_Some (Store.get name cs))),
              Store.delete name cs, [CacheDelete name]).

(** [caches.match(request)]: only a GET request matches an entry. *)
Definition caches_match (request : Request) : Promise (option Response) :=
  if store_fails env (OpMatch (url request)) then reject StoreError
  else λ cs, (Fulfilled (if decide (method request = "GET")
                         then Store.match_ (url request) cs else None),
              cs, [CacheRead (url request)]).

(** [cache.put(request, response)]: a request that is not a GET and a
    partial response (206) are refused. *)
Definition cache_put (cache : string) (request : Request) (r : Response)
  : Promise unit :=
  if bool_decide (method request ≠ "GET" ∨ status r = 206) then reject TypeError
  else if store_fails env (OpPut cache (url request)) then reject StoreError
  else λ cs, (Fulfilled tt, Store.update cache (<[url request := r]>) cs,
              [CacheWrite cache (url request) r]).

(** The responses [cache.addAll] fetched, when every fetch succeeded with
    an [ok] status that is not 206. *)
Fixpoint fetch_all (requests : list Request) : option (list (string * Response)) :=
  match requests with
  | [] => Some []
  | q :: rest =>
      match network env (url q) with
      | Some r =>
          if ok r && bool_decide (status r ≠ 206)
          then ((url q, r) ::.) <$> fetch_all rest
          else None
      | None => None
      end
  end.

(** [cache.addAll(requests)]: every request is fetched; if one fetch
    fails or answers with a status that is not [ok], the promise rejects
    and nothing is stored; otherwise all the responses are stored. *)
Definition cache_addAll (cache : string) (requests : list Request) : Promise unit :=
  mapS (λ q, emit (NetFetch (url q))) requests ;;
  match fetch_all requests with
  | None => reject TypeError
  | Some entries =>
      if store_fails env (OpAddAll cache) then reject StoreError
      else λ cs, (Fulfilled tt, Store.update cache (Store.put_all entries) cs,
                  (λ ur, CacheWrite cache ur.1 ur.2) <$> entries)
  end.

(** ** The worker: [static/sw.js] *)

Definition CACHE_VERSION : string := "v1".
Definition CACHE_NAME : string := "quang-hugo-" +:+ CACHE_VERSION.

Definition STATIC_ASSETS : list string :=
  [ "/";
    "/offline.html";
    "/favicon.png";
    "/logo.png";
    "/img/avatar.jpg";
    "/img/icons/icon-192.png";
    "/img/icons/icon-512.png";
    "/manifest.json" ].

(** [self.addEventListener('install', ...)] *)
Definition on_install (event : Event) : Sync Event :=
  console_log "[Service Worker] Installing..." ;;
  event <- waitUntil event
    (catch_
       (then_ (caches_open CACHE_NAME) (λ cache,
          console_log "[Service Worker] Caching static assets" ;;
          ret (cache_addAll cache
                 ((λ u, Request_new u "reload") <$> STATIC_ASSETS))))
       (λ error,
          console_error "[Service Worker] Cache failed:" error ;;
          ret (resolve tt))) ;;
  skipWaiting ;;
  ret event.

(** [self.addEventListener('activate', ...)] *)
Definition on_activate (event : Event) : Sync Event :=
  console_log "[Service Worker] Activating..." ;;
  event <- waitUntil event
    (then_ caches_keys (λ cacheNames,
       ps <- mapS (λ cacheName,
               if decide (cacheName ≠ CACHE_NAME) then
                 console_log ("[Service Worker] Deleting old cache: " +:+ cacheName) ;;
                 ret (then_ (caches_delete cacheName) (λ b, ret (resolve (Some b))))
               else ret (resolve None))
             cacheNames ;;
       ret (Promise_all ps))) ;;
  clients_claim ;;
  ret event.

(** [self.addEventListener('fetch', ...)], with [request] the request of
    the event. A cached or fetched response is an object, so the tests
    [if (cachedResponse)] and [!response] only tell a response from
    [undefined]. *)
Definition on_fetch (request : Request) (event : Event) : Sync Event :=
  if decide (method request ≠ "GET") then ret event
  else if decide (url_origin env (url request) ≠ location_origin env) then ret event
  else
    respondWith event
      (then_ (caches_match request) (λ cachedResponse,
         match cachedResponse with
         | Some cached => ret (resolve (Some cached))
         | None =>
             ret (catch_
               (then_ (fetch request) (λ response,
                  if decide (status response ≠ 200 ∨ type response ≠ Basic)
                  then ret (resolve (Some response))
                  else
                    let responseToCache := response in
                    detached
                      (then_ (caches_open CACHE_NAME) (λ cache,
                         detached (cache_put cache request responseToCache) ;;
                         ret (resolve tt))) ;;
                    ret (resolve (Some response))))
               (λ _,
                  if decide (mode request = "navigate")
                  then ret (caches_match (Request_new "/offline.html" "default"))
                  else ret (resolve (Some
                         (Response_new "Offline" 503 "Service Unavailable"
                            [("Content-Type", "text/plain")])))))
         end)).

End Worker.

(** ** Vocabulary of the properties *)

Section Vocabulary.

Variable env : Env.

(** A request the interceptor handles: a same-origin GET. *)
Definition eligible (request : Request) : Prop :=
  method request = "GET" ∧ url_origin env (url request) = location_origin env.

(** The URL of the offline document, as [caches.match('/offline.html')]
    resolves it. *)
Definition offline_url : string := location_origin env +:+ "/offline.html".

(** The URL of a static asset, as [new Request(path)] resolves it. *)
Definition asset_url (path : string) : string := location_origin env +:+ path.

(** A cache miss: the read of the storage succeeds and finds nothing. *)
Definition misses (request : Request) (cs : CacheStorage) : Prop :=
  eligible request ∧
  store_fails env (OpMatch (url request)) = false ∧
  Store.match_ (url request) cs = None.

(** The requests of the install step, and the fetches they cause. *)
Definition install_requests : list Request :=
  (λ u, Request_new env u "reload") <$> STATIC_ASSETS.

Definition install_fetches : list Effect :=
  (λ q, NetFetch (url q)) <$> install_requests.

Definition cache_failed (e : Err) : Effect :=
  ConsoleError "[Service Worker] Cache failed:" e.

(** The namespaces the activate step really deletes out of [names]:
    those that are not the current one and whose deletion succeeds. *)
Definition doomed (names : list string) : list string :=
  filter (λ n, n ≠ CACHE_NAME ∧ store_fails env (OpDelete n) = false) names.

Definition purge (names : list string) (cs : CacheStorage) : CacheStorage :=
  filter (λ nc : string * Cache, nc.1 ∉ doomed names) cs.

(** What the activate step logs and starts for the names it enumerated. *)
Definition deletion_logs (names : list string) : list Effect :=
  (λ n, ConsoleLog ("[Service Worker] Deleting old cache: " +:+ n))
    <$> filter (λ n, n ≠ CACHE_NAME) names.

Definition deletions (names : list string) : list (Promise (option bool)) :=
  (λ n, if decide (n ≠ CACHE_NAME)
        then then_ (caches_delete env n) (λ b, ret (resolve (Some b)))
        else resolve None) <$> names.

(** No deletion among [names] fails. *)
Definition deletable (names : list string) : bool :=
  forallb (λ n, bool_decide (n = CACHE_NAME) || negb (store_fails env (OpDelete n)))
    names.

(** The request is not intercepted. *)
Definition passed_through (cs : CacheStorage) : Dispatched :=
  {| storage := cs; effects := []; settled := []; answer := None |}.

(** An intercepted request and its answer. *)
Definition answered (cs : CacheStorage) (t : list Effect)
    (o : Outcome (option Response)) : Dispatched :=
  {| storage := cs; effects := t; settled := []; answer := Some o |}.

End Vocabulary.

(** The synthetic response of the interceptor when the network is down. *)
Definition service_unavailable : Response :=
  {| status := 503; statusText := "Service Unavailable"; type := Default;
     headers := [("Content-Type", "text/plain")]; body := "Offline" |}.

(** Every entry of a namespace, and of the storage, has a success status. *)
Definition entries_ok (c : Cache) : Prop := ∀ u r, c !! u = Some r → ok r = true.

Definition stored_ok (cs : CacheStorage) : Prop :=
  ∀ name c u r, (name, c) ∈ cs → c !! u = Some r → ok r = true.

(** The first [a] of the trace is followed by some [b]. *)
Fixpoint precedes (a b : Effect) (t : list Effect) : bool :=
  match t with
  | [] => false
  | e :: t' => if decide (e = a) then bool_decide (b ∈ t') else precedes a b t'
  end.

(** Unfold one dispatch down to the store operations. *)
Ltac unfold_run :=
  cbv [dispatch on_fetch on_install on_activate respondWith waitUntil then_ catch_
       void detached bind ret resolve reject emit console_log console_error
       skipWaiting clients_claim fetch caches_match caches_open cache_put
       caches_keys caches_delete lifetime response answered passed_through];
  cbn [mapS app]; cbv [bind ret].

(** ** Concrete scenarios *)

Module Scenario.

Definition site : string := "https://quanghugo.example".

(** The origin of the few URLs the scenarios use. *)
Definition origin_of (u : string) : string :=
  if String.prefix (site +:+ "/") u then site else "https://cdn.example".

Definition page (b : string) : Response :=
  {| status := 200; statusText := "OK"; type := Basic; headers := []; body := b |}.

(** Every URL is served; no store operation fails. *)
Definition online : Env :=
  {| location_origin := site; url_origin := origin_of;
     network := λ u, Some (page u); store_fails := λ _, false |}.

(** The network is unreachable. *)
Definition offline : Env :=
  {| location_origin := site; url_origin := origin_of;
     network := λ _, None; store_fails := λ _, false |}.

(** One static asset cannot be fetched. *)
Definition logo_missing : Env :=
  {| location_origin := site; url_origin := origin_of;
     network := λ u, if decide (u = site +:+ "/logo.png") then None else Some (page u);
     store_fails := λ _, false |}.

(** One asset is answered with 404. *)
Definition not_found : Env :=
  {| location_origin := site; url_origin := origin_of;
     network := λ u, Some {| status := 404; statusText := "Not Found"; type := Basic;
                             headers := []; body := "" |};
     store_fails := λ _, false |}.

(** Reading the cache storage fails. *)
Definition unreadable : Env :=
  {| location_origin := site; url_origin := origin_of;
     network := λ u, Some (page u);
     store_fails := λ op, match op with OpMatch _ => true | _ => false end |}.

(** Writing an entry fails (quota exceeded). *)
Definition quota_exceeded : Env :=
  {| location_origin := site; url_origin := origin_of;
     network := λ u, Some (page u);
     store_fails := λ op, match op with OpPut _ _ => true | _ => false end |}.

(** A storage that still holds the namespace of an older version, with
    its own copy of the home page. *)
Definition stale : CacheStorage :=
  [ ("quang-hugo-v0", {[ site +:+ "/" := page "old home" ]});
    ("quang-hugo-v1", {[ site +:+ "/" := page "new home" ]}) ].

(** A storage whose only namespace is the current one, holding the
    offline document. *)
Definition installed : CacheStorage :=
  [ ("quang-hugo-v1", {[ site +:+ "/offline.html" := page "offline" ]}) ].

(** The storage after an install whose [cache.addAll] was rejected. *)
Definition bare : CacheStorage := [ ("quang-hugo-v1", ∅) ].

Definition get (path : string) : Request :=
  {| method := "GET"; url := site +:+ path; mode := "cors"; cache := "default" |}.

Definition navigate (path : string) : Request :=
  {| method := "GET"; url := site +:+ path; mode := "navigate"; cache := "default" |}.

Definition post (path : string) : Request :=
  {| method := "POST"; url := site +:+ path; mode := "cors"; cache := "default" |}.

End Scenario.

(** ** The worker as a whole *)

(** The three events the worker listens to
    ([self.addEventListener('install' | 'activate' | 'fetch', ...)]). *)
Inductive Message :=
  | Install
  | Activate
  | Fetch (request : Request).

(** Dispatch one event to its listener. *)
Definition handle (env : Env) (m : Message) (cs : CacheStorage) : Dispatched :=
  match m with
  | Install => dispatch (on_install env) cs
  | Activate => dispatch (on_activate env) cs
  | Fetch request => dispatch (on_fetch env request) cs
  end.

(** The storage after a sequence of events, each in the environment of
    its time. *)
Fixpoint run (script : list (Env * Message)) (cs : CacheStorage) : CacheStorage :=
  match script with
  | [] => cs
  | (env, m) :: rest => run rest (storage (handle env m cs))
  end.

(** The storage after the install step and then the activate step. *)
Definition rollout (env : Env) (cs : CacheStorage) : CacheStorage :=
  storage (dispatch (on_activate env) (storage (dispatch (on_install env) cs))).


(** The enumeration and every deletion of the activate step work. *)
Definition activate_can_succeed (env : Env) : Prop :=
  store_fails env OpKeys = false ∧ ∀ n, store_fails env (OpDelete n) = false.

(** More scenarios. *)
Module Failing.

(** The namespace of version v0 cannot be deleted. *)
Definition undeletable : Env :=
  {| location_origin := Scenario.site; url_origin := Scenario.origin_of;
     network := λ u, Some (Scenario.page u);
     store_fails := λ op, match op with
                          | OpDelete n => bool_decide (n = "quang-hugo-v0")
                          | _ => false
                          end |}.

(** The namespaces cannot be enumerated. *)
Definition unlistable : Env :=
  {| location_origin := Scenario.site; url_origin := Scenario.origin_of;
     network := λ u, Some (Scenario.page u);
     store_fails := λ op, match op with OpKeys => true | _ => false end |}.

(** Namespaces of two older versions and of an unrelated script. *)
Definition crowded : CacheStorage :=
  [ ("quang-hugo-v0", {[ Scenario.site +:+ "/" := Scenario.page "old home" ]});
    ("comments", {[ Scenario.site +:+ "/api/comments" := Scenario.page "[]" ]});
    ("quang-hugo-v1", {[ Scenario.site +:+ "/" := Scenario.page "new home" ]}) ].



End Failing.

(** * Properties *)

(** ** The cache storage *)

Section StoreFacts.

Implicit Types (cs : CacheStorage) (c : Cache) (name u : string).

Lemma get_app name cs cs' :
  Store.get name (cs ++ cs') =
    match Store.get name cs with Some c => Some c | None => Store.get name cs' end.
Proof.
  induction cs as [|[n c] cs IH]; simpl; [by destruct (Store.get name cs')|].
  by case_decide.
Qed.

Lemma get_open name cs :
  Store.get name (Store.open name cs) = Some (default ∅ (Store.get name cs)).
Proof.
  unfold Store.open. destruct (Store.get name cs) as [c|] eqn:E; simpl; [done|].
  rewrite get_app, E. simpl. by rewrite decide_True.
Qed.

Lemma get_open_ne name n cs :
  n ≠ name → Store.get n (Store.open name cs) = Store.get n cs.
Proof.
  intros Hne. unfold Store.open. destruct (Store.get name cs); [done|].
  rewrite get_app. destruct (Store.get n cs); [done|].
  simpl. by rewrite decide_False.
Qed.

Lemma get_update name n f cs :
  Store.get n (Store.update name f cs) =
    if decide (n = name) then f <$> Store.get n cs else Store.get n cs.
Proof.
  induction cs as [|[m c] cs IH]; simpl; [by case_decide|].
  repeat (case_decide; simplify_eq/=); try done.
Qed.

(** Opening a namespace adds no entry. *)
Lemma lookup_open name n u cs :
  Store.lookup n u (Store.open name cs) = Store.lookup n u cs.
Proof.
  unfold Store.lookup. destruct (decide (n = name)) as [->|Hne].
  - rewrite get_open. by destruct (Store.get name cs).
  - by rewrite get_open_ne.
Qed.

Lemma match_none u cs :
  (∀ name c, (name, c) ∈ cs → c !! u = None) → Store.match_ u cs = None.
Proof.
  induction cs as [|[n c] cs IH]; intros H; simpl; [done|].
  rewrite (H n c) by set_solver. apply IH. intros n' c' Hin.
  apply (H n' c'). set_solver.
Qed.

(** A response found by [caches.match] is stored in some namespace. *)
Lemma match_stored u cs r :
  Store.match_ u cs = Some r → ∃ name c, (name, c) ∈ cs ∧ c !! u = Some r.
Proof.
  induction cs as [|[n c] cs IH]; simpl; [done|].
  destruct (c !! u) as [r'|] eqn:E.
  - intros [= ->]. exists n, c. set_solver.
  - intros (n' & c' & ? & ?)%IH. exists n', c'. set_solver.
Qed.

(** With distinct namespace names, [caches.match] agrees with the lookup
    in the one namespace that holds the URL. *)
Lemma match_only_namespace name u cs :
  NoDup (Store.keys cs) →
  (∀ n c, (n, c) ∈ cs → n ≠ name → c !! u = None) →
  Store.match_ u cs = Store.lookup name u cs.
Proof.
  unfold Store.lookup.
  induction cs as [|[n c] cs IH]; intros Hnd H; simpl; [done|].
  apply NoDup_cons in Hnd as [Hn Hnd].
  case_decide as Hc; simpl.
  - subst n. destruct (c !! u) eqn:E; [done|].
    apply match_none. intros n' c' Hin. apply (H n' c'); [set_solver|].
    intros ->. apply Hn. unfold Store.keys. apply list_elem_of_fmap.
    by exists (name, c').
  - rewrite (H n c) by set_solver. apply IH; [done|].
    intros n' c' Hin. apply (H n' c'). set_solver.
Qed.

Lemma put_all_lookup (f : string → option Response) entries c u e :
  (∀ u' e', (u', e') ∈ entries → f u' = Some e') →
  (u, e) ∈ entries →
  Store.put_all entries c !! u = Some e.
Proof.
  unfold Store.put_all. revert c.
  induction entries as [|[u0 e0] entries IH] using rev_ind; intros c Hf Hin.
  { by apply elem_of_nil in Hin. }
  rewrite foldl_app. simpl.
  apply elem_of_app in Hin as [Hin | Hin%list_elem_of_singleton].
  - assert (Store.put_all entries c !! u = Some e) as Hrec.
    { apply IH; [|done]. intros u' e' H'. apply Hf, elem_of_app. by left. }
    unfold Store.put_all in Hrec.
    destruct (decide (u0 = u)) as [->|Hne].
    + rewrite lookup_insert_eq.
      transitivity (f u); [symmetry|]; apply Hf, elem_of_app.
      * right. by apply list_elem_of_singleton.
      * by left.
    + by rewrite lookup_insert_ne.
  - injection Hin as -> ->. by rewrite lookup_insert_eq.
Qed.

End StoreFacts.

(** ** The fetch listener *)

Section FetchListener.

Variable env : Env.
Implicit Types (request : Request) (cs : CacheStorage) (r : Response).

(** The two guards of the listener: the request is not intercepted. *)
Lemma fetch_skipped request cs :
  method request ≠ "GET" ∨ url_origin env (url request) ≠ location_origin env →
  dispatch (on_fetch env request) cs = passed_through cs.
Proof.
  intros H. unfold dispatch, on_fetch.
  destruct (decide (method request ≠ "GET")) as [|Hm]; [done|].
  destruct (decide (url_origin env (url request) ≠ location_origin env)); [done|].
  tauto.
Qed.

(** C4. A request that is not a GET, or whose URL has another origin
    than the worker, is passed through untouched: no answer is produced,
    the cache storage is neither read nor written, and nothing else is
    done either. *)
Theorem fetch_pass_through request cs :
  method request ≠ "GET" ∨ url_origin env (url request) ≠ location_origin env →
  let d := dispatch (on_fetch env request) cs in
  d = passed_through cs ∧
  answer d = None ∧
  filter touches_store (effects d) = [] ∧
  storage d = cs.
Proof. intros H d. subst d. by rewrite fetch_skipped. Qed.

(** The interceptor answers a cache hit from the storage alone. *)
Lemma fetch_hit request cs r :
  eligible env request →
  store_fails env (OpMatch (url request)) = false →
  Store.match_ (url request) cs = Some r →
  dispatch (on_fetch env request) cs =
    answered cs [CacheRead (url request)] (Fulfilled (Some r)).
Proof.
  intros [Hm Ho] Hs Hr. unfold dispatch, on_fetch.
  rewrite decide_False by (by intros ?).
  rewrite decide_False by (by intros ?).
  unfold_run. rewrite Hs, decide_True, Hr by done. done.
Qed.

(** A read of the storage that fails rejects the answer. *)
Lemma fetch_read_failure request cs :
  eligible env request →
  store_fails env (OpMatch (url request)) = true →
  dispatch (on_fetch env request) cs = answered cs [] (Rejected StoreError).
Proof.
  intros [Hm Ho] Hs. unfold dispatch, on_fetch.
  rewrite decide_False by (by intros ?).
  rewrite decide_False by (by intros ?).
  unfold_run. by rewrite Hs.
Qed.

Ltac start_miss H :=
  destruct H as ([Hm Ho] & Hs & Hr); unfold dispatch, on_fetch;
  rewrite decide_False by (by intros ?);
  rewrite decide_False by (by intros ?);
  unfold_run; rewrite Hs, decide_True, Hr by done.

(** A miss answered by the network with a response that is not cached. *)
Lemma fetch_miss_uncached request cs r :
  misses env request cs →
  network env (url request) = Some r →
  status r ≠ 200 ∨ type r ≠ Basic →
  dispatch (on_fetch env request) cs =
    answered cs [CacheRead (url request); NetFetch (url request)]
      (Fulfilled (Some r)).
Proof.
  intros H Hn Hr'. start_miss H. rewrite Hn.
  by rewrite decide_True.
Qed.

(** A miss answered by the network with a response that is cached. *)
Lemma fetch_miss_cached request cs r :
  misses env request cs →
  network env (url request) = Some r →
  status r = 200 → type r = Basic →
  dispatch (on_fetch env request) cs =
    if store_fails env (OpOpen CACHE_NAME) then
      answered cs [CacheRead (url request); NetFetch (url request)]
        (Fulfilled (Some r))
    else if store_fails env (OpPut CACHE_NAME (url request)) then
      answered (Store.open CACHE_NAME cs)
        [CacheRead (url request); NetFetch (url request); CacheOpen CACHE_NAME]
        (Fulfilled (Some r))
    else
      answered (Store.update CACHE_NAME (<[url request := r]>) (Store.open CACHE_NAME cs))
        [CacheRead (url request); NetFetch (url request); CacheOpen CACHE_NAME;
         CacheWrite CACHE_NAME (url request) r]
        (Fulfilled (Some r)).
Proof.
  intros H Hn Hst Hty. start_miss H. rewrite Hn.
  rewrite decide_False by (intros [?|?]; done).
  destruct (store_fails env (OpOpen CACHE_NAME)); [done|].
  rewrite bool_decide_eq_false_2 by (intros [?|?]; [done|lia]).
  by destruct (store_fails env (OpPut CACHE_NAME (url request))).
Qed.

(** A miss with the network down, for a request that is not a
    navigation. *)
Lemma fetch_miss_offline_resource request cs :
  misses env request cs →
  network env (url request) = None →
  mode request ≠ "navigate" →
  dispatch (on_fetch env request) cs =
    answered cs [CacheRead (url request); NetFetch (url request)]
      (Fulfilled (Some service_unavailable)).
Proof.
  intros H Hn Hmode. start_miss H. rewrite Hn.
  by rewrite decide_False.
Qed.

(** A miss with the network down, for a navigation. *)
Lemma fetch_miss_offline_navigation request cs :
  misses env request cs →
  network env (url request) = None →
  mode request = "navigate" →
  dispatch (on_fetch env request) cs =
    if store_fails env (OpMatch (offline_url env)) then
      answered cs [CacheRead (url request); NetFetch (url request)]
        (Rejected StoreError)
    else
      answered cs
        [CacheRead (url request); NetFetch (url request); CacheRead (offline_url env)]
        (Fulfilled (Store.match_ (offline_url env) cs)).
Proof.
  intros H Hn Hmode. start_miss H. rewrite Hn.
  rewrite decide_True by done. unfold Request_new, offline_url. simpl.
  destruct (store_fails env (OpMatch (_ +:+ _))); reflexivity.
Qed.

(** Every path of the interceptor, one goal each. *)
Ltac fetch_paths request cs :=
  let Hm := fresh "Hm" in let Ho := fresh "Ho" in let Hs := fresh "Hs" in
  let Hr := fresh "Hr" in let Hn := fresh "Hn" in let Hmiss := fresh "Hmiss" in
  let Hst := fresh "Hst" in let Hty := fresh "Hty" in let Hnav := fresh "Hnav" in
  let cached := fresh "cached" in let r := fresh "r" in
  destruct (decide (method request = "GET")) as [Hm|Hm];
    [|rewrite (fetch_skipped request cs) by (by left)];
  [destruct (decide (url_origin env (url request) = location_origin env)) as [Ho|Ho];
    [|rewrite (fetch_skipped request cs) by (by right)]|];
  [destruct (store_fails env (OpMatch (url request))) eqn:Hs;
    [rewrite (fetch_read_failure request cs) by done|]|..];
  [|destruct (Store.match_ (url request) cs) as [cached|] eqn:Hr;
    [rewrite (fetch_hit request cs cached) by done|]|..];
  [| |assert (misses env request cs) as Hmiss by done;
      destruct (network env (url request)) as [r|] eqn:Hn|..];
  [| |destruct (decide (status r = 200)) as [Hst|Hst];
       [destruct (decide (type r = Basic)) as [Hty|Hty]|];
       [rewrite (fetch_miss_cached request cs r) by done
       |rewrite (fetch_miss_uncached request cs r) by (done || by right)
       |rewrite (fetch_miss_uncached request cs r) by (done || by left)]
     |destruct (decide (mode request = "navigate")) as [Hnav|Hnav];
       [rewrite (fetch_miss_offline_navigation request cs) by done
       |rewrite (fetch_miss_offline_resource request cs) by done]
     |..].

(** The only entry the interceptor ever writes is the response of the
    network to the request, with status 200 and type basic, in the
    current namespace. *)
Lemma fetch_write_inv request cs name u r :
  CacheWrite name u r ∈ effects (dispatch (on_fetch env request) cs) →
  name = CACHE_NAME ∧ u = url request ∧ network env (url request) = Some r ∧
  status r = 200 ∧ type r = Basic.
Proof.
  fetch_paths request cs; simpl;
    repeat match goal with
      | |- context [if store_fails env ?op then _ else _] =>
          destruct (store_fails env op)
      end; simpl; intros Hin;
    repeat (apply elem_of_cons in Hin as [Hin|Hin]; [try discriminate Hin|]);
    try (by apply elem_of_nil in Hin).
  by injection Hin as -> -> ->.
Qed.

(** C5, amended. For an eligible request the interceptor looks the URL
    up across all the namespaces of the storage, in creation order; when
    an entry is found, the answer is the first such entry, no network
    request is issued and the storage is unchanged. When the namespaces
    have distinct names and only the current one holds the URL, that
    entry is the one of the current namespace. *)
Theorem fetch_answers_first_match request cs r :
  eligible env request →
  store_fails env (OpMatch (url request)) = false →
  Store.match_ (url request) cs = Some r →
  let d := dispatch (on_fetch env request) cs in
  answer d = Some (Fulfilled (Some r)) ∧
  filter is_fetch (effects d) = [] ∧
  storage d = cs ∧
  (NoDup (Store.keys cs) →
   (∀ n c, (n, c) ∈ cs → n ≠ CACHE_NAME → c !! url request = None) →
   Store.lookup CACHE_NAME (url request) cs = Some r).
Proof.
  intros He Hs Hr d. subst d. rewrite (fetch_hit request cs r) by done.
  repeat split. intros Hnd Hother.
  by rewrite <- (match_only_namespace CACHE_NAME) by done.
Qed.

(** C6. The interceptor writes a response into the cache storage only
    when it has a success status (it is 200) and type basic; a response
    of the network that is not both is answered to the caller and the
    storage is left as it was. *)
Theorem fetch_caches_only_basic_success request cs :
  let d := dispatch (on_fetch env request) cs in
  (∀ name u r, CacheWrite name u r ∈ effects d → ok r = true ∧ type r = Basic) ∧
  (∀ r, misses env request cs →
        network env (url request) = Some r →
        ¬ (ok r = true ∧ type r = Basic) →
        answer d = Some (Fulfilled (Some r)) ∧
        storage d = cs ∧
        filter is_write (effects d) = []).
Proof.
  intros d. subst d. split.
  - intros name u r (_ & _ & _ & Hst & Hty)%fetch_write_inv.
    split; [|done]. unfold ok. rewrite Hst. by apply bool_decide_eq_true_2.
  - intros r Hmiss Hn Hno.
    rewrite (fetch_miss_uncached request cs r); [done..|].
    destruct (decide (status r = 200)) as [Hst|]; [|by left].
    right. intros Hty. apply Hno. split; [|done].
    unfold ok. rewrite Hst. by apply bool_decide_eq_true_2.
Qed.

(** C7, amended. For an eligible request with no cached entry whose
    network fetch fails: a navigation is answered with the offline
    document when the lookup of [/offline.html] finds it in the storage,
    and that document has a success status when the entries of the
    storage do; a request that is not a navigation is answered with the
    synthetic response: status 503, plain text. *)
Theorem fetch_offline_answer request cs :
  misses env request cs →
  network env (url request) = None →
  let d := dispatch (on_fetch env request) cs in
  (mode request = "navigate" →
   store_fails env (OpMatch (offline_url env)) = false →
   ∀ doc, Store.match_ (offline_url env) cs = Some doc →
     answer d = Some (Fulfilled (Some doc)) ∧ (stored_ok cs → ok doc = true)) ∧
  (mode request ≠ "navigate" →
   answer d = Some (Fulfilled (Some service_unavailable)) ∧
   status service_unavailable = 503 ∧
   headers service_unavailable = [("Content-Type", "text/plain")] ∧
   body service_unavailable = "Offline").
Proof.
  intros Hmiss Hn d. subst d. split.
  - intros Hnav Hs doc Hdoc.
    rewrite fetch_miss_offline_navigation, Hs by done. simpl.
    split; [by rewrite Hdoc|].
    intros Hok. apply match_stored in Hdoc as (name & c & Hin & Hc).
    by apply (Hok name c (offline_url env)).
  - intros Hnav. by rewrite fetch_miss_offline_resource.
Qed.

(** C9, amended. A failed read of the storage is not recovered: the
    answer is rejected with the store error and no network request is
    issued. A failed write (the open or the put of the write-back) skips
    caching: the answer is the response of the network, nothing is
    written and every entry of the storage is as it was. *)
Theorem fetch_store_failure request cs :
  eligible env request →
  let d := dispatch (on_fetch env request) cs in
  (store_fails env (OpMatch (url request)) = true →
   d = answered cs [] (Rejected StoreError)) ∧
  (∀ r, misses env request cs →
        network env (url request) = Some r →
        status r = 200 → type r = Basic →
        store_fails env (OpOpen CACHE_NAME) = true ∨
          store_fails env (OpPut CACHE_NAME (url request)) = true →
        answer d = Some (Fulfilled (Some r)) ∧
        filter is_write (effects d) = [] ∧
        ∀ name u, Store.lookup name u (storage d) = Store.lookup name u cs).
Proof.
  intros He d. subst d. split.
  - intros Hs. by apply fetch_read_failure.
  - intros r Hmiss Hn Hst Hty Hfail.
    rewrite (fetch_miss_cached request cs r) by done.
    destruct (store_fails env (OpOpen CACHE_NAME)); [done|].
    destruct Hfail as [Hfail|Hfail]; [done|]. rewrite Hfail. simpl.
    repeat split. intros name u. apply lookup_open.
Qed.

(** C10. When the network fetch of a navigation fails and no namespace
    holds the offline document, the answer of the interceptor is the
    undefined result of the lookup of [/offline.html]: the synthetic
    response is not substituted. *)
Theorem fetch_offline_navigation_undefined request cs :
  misses env request cs →
  network env (url request) = None →
  mode request = "navigate" →
  store_fails env (OpMatch (offline_url env)) = false →
  (∀ name c, (name, c) ∈ cs → c !! offline_url env = None) →
  dispatch (on_fetch env request) cs =
    answered cs
      [CacheRead (url request); NetFetch (url request); CacheRead (offline_url env)]
      (Fulfilled None).
Proof.
  intros Hmiss Hn Hnav Hs Habsent.
  rewrite fetch_miss_offline_navigation, Hs by done.
  by rewrite match_none.
Qed.

End FetchListener.

(** ** The install listener *)

Section InstallListener.

Variable env : Env.
Implicit Types (cs : CacheStorage) (requests : list Request).

Lemma mapS_emit {A} (f : A → Effect) (l : list A) cs :
  mapS (λ a, emit (f a)) l cs = (const tt <$> l, cs, f <$> l).
Proof.
  induction l as [|a l IH]; [done|].
  cbn [mapS]. unfold bind at 1. unfold emit at 1.
  unfold bind at 1. rewrite IH. simpl. by rewrite app_nil_r.
Qed.

Lemma fetch_all_fails requests q :
  q ∈ requests → network env (url q) = None → fetch_all env requests = None.
Proof.
  induction requests as [|q' requests IH]; intros Hin Hn.
  { by apply elem_of_nil in Hin. }
  simpl. apply elem_of_cons in Hin as [<-|Hin]; [by rewrite Hn|].
  rewrite IH by done. by repeat case_match.
Qed.

(** What [cache.addAll] stores is what the network answered, with a
    success status. *)
Lemma fetch_all_entries requests entries u e :
  fetch_all env requests = Some entries →
  (u, e) ∈ entries →
  network env u = Some e ∧ ok e = true ∧ ∃ q, q ∈ requests ∧ url q = u.
Proof.
  revert entries. induction requests as [|q requests IH]; intros entries; simpl.
  { intros [= <-] Hin. by apply elem_of_nil in Hin. }
  destruct (network env (url q)) as [r|] eqn:Hn; [|done].
  destruct (ok r && bool_decide (status r ≠ 206)) eqn:Hok; [|done].
  destruct (fetch_all env requests) as [rest|]; [|done].
  simpl. intros [= <-] [Heq|Hin]%elem_of_cons.
  - injection Heq as -> ->. apply andb_true_iff in Hok as [Hok _].
    repeat split; [done..|]. exists q. split; [|done]. by left.
  - destruct (IH rest eq_refl Hin) as (? & ? & q' & ? & ?).
    repeat split; [done..|]. exists q'. split; [|done]. by right.
Qed.

(** Every request of a successful [cache.addAll] has its entry. *)
Lemma fetch_all_covers requests entries q :
  fetch_all env requests = Some entries →
  q ∈ requests → ∃ e, (url q, e) ∈ entries.
Proof.
  revert entries. induction requests as [|q' requests IH]; intros entries; simpl.
  { intros _ Hin. by apply elem_of_nil in Hin. }
  destruct (network env (url q')) as [r|] eqn:Hn; [|done].
  destruct (ok r && bool_decide (status r ≠ 206)); [|done].
  destruct (fetch_all env requests) as [rest|]; [|done].
  simpl. intros [= <-] [->|Hin]%elem_of_cons.
  - exists r. by left.
  - destruct (IH rest eq_refl Hin) as [e He]. exists e. by right.
Qed.

Lemma cache_addAll_run name requests cs :
  cache_addAll env name requests cs =
    let fetches := (λ q, NetFetch (url q)) <$> requests in
    match fetch_all env requests with
    | None => (Rejected TypeError, cs, fetches)
    | Some entries =>
        if store_fails env (OpAddAll name) then (Rejected StoreError, cs, fetches)
        else (Fulfilled tt, Store.update name (Store.put_all entries) cs,
              fetches ++ ((λ ur, CacheWrite name ur.1 ur.2) <$> entries))
    end.
Proof.
  unfold cache_addAll, bind. rewrite mapS_emit. simpl.
  destruct (fetch_all env requests) as [entries|]; simpl.
  - destruct (store_fails env (OpAddAll name)); simpl; [|done].
    by rewrite app_nil_r.
  - by rewrite app_nil_r.
Qed.

(** The four ways the install step can go. *)
Lemma install_run cs :
  dispatch (on_install env) cs =
    let prologue := [ConsoleLog "[Service Worker] Installing..."; SkipWaiting] in
    let caching := [CacheOpen CACHE_NAME;
                    ConsoleLog "[Service Worker] Caching static assets"] in
    if store_fails env (OpOpen CACHE_NAME) then
      {| storage := cs; effects := prologue ++ [cache_failed StoreError];
         settled := [Fulfilled tt]; answer := None |}
    else
      match fetch_all env (install_requests env) with
      | None =>
          {| storage := Store.open CACHE_NAME cs;
             effects := prologue ++ caching ++ install_fetches env ++
                        [cache_failed TypeError];
             settled := [Fulfilled tt]; answer := None |}
      | Some entries =>
          if store_fails env (OpAddAll CACHE_NAME) then
            {| storage := Store.open CACHE_NAME cs;
               effects := prologue ++ caching ++ install_fetches env ++
                          [cache_failed StoreError];
               settled := [Fulfilled tt]; answer := None |}
          else
            {| storage := Store.update CACHE_NAME (Store.put_all entries)
                            (Store.open CACHE_NAME cs);
               effects := prologue ++ caching ++ install_fetches env ++
                          ((λ ur, CacheWrite CACHE_NAME ur.1 ur.2) <$> entries);
               settled := [Fulfilled tt]; answer := None |}
      end.
Proof.
  unfold_run. fold (install_requests env).
  destruct (store_fails env (OpOpen CACHE_NAME)); [done|].
  rewrite cache_addAll_run. fold (install_fetches env). cbn zeta.
  destruct (fetch_all env (install_requests env)) as [entries|]; simpl.
  - destruct (store_fails env (OpAddAll CACHE_NAME)); simpl;
      by rewrite ?app_nil_r, <- ?app_assoc.
  - by rewrite ?app_nil_r, <- ?app_assoc.
Qed.

Lemma install_request_url q :
  q ∈ install_requests env →
  ∃ path, path ∈ STATIC_ASSETS ∧ url q = asset_url env path.
Proof.
  unfold install_requests. intros (path & -> & Hin)%list_elem_of_fmap.
  by exists path.
Qed.

Lemma asset_requested path :
  path ∈ STATIC_ASSETS → Request_new env path "reload" ∈ install_requests env.
Proof.
  intros Hin. unfold install_requests.
  by apply (list_elem_of_fmap_2 (λ u, Request_new env u "reload")).
Qed.

Lemma fetches_not_written name u e requests :
  CacheWrite name u e ∉ (λ q, NetFetch (url q)) <$> requests.
Proof. by intros (q & ? & _)%list_elem_of_fmap. Qed.

Lemma filter_write_fetches requests :
  filter is_write ((λ q, NetFetch (url q)) <$> requests) = [].
Proof.
  induction requests as [|q requests IH]; [done|].
  rewrite fmap_cons, filter_cons_False; [done|]. by intros ?.
Qed.

Lemma filter_fetch_fetches requests :
  filter is_fetch ((λ q, NetFetch (url q)) <$> requests) =
    (λ q, NetFetch (url q)) <$> requests.
Proof.
  induction requests as [|q requests IH]; [done|].
  rewrite fmap_cons, filter_cons_True by done. by rewrite IH.
Qed.

(** However it goes, the promise handed to [waitUntil] is fulfilled. *)
Lemma install_always_succeeds cs :
  succeeded (dispatch (on_install env) cs) = true.
Proof. rewrite install_run. simpl. by repeat case_match. Qed.

(** C1, amended. When the fetch of a URL of the static asset list fails,
    [cache.addAll] rejects and stores nothing; the listener catches the
    rejection, logs it with [console.error] and fetches nothing a second
    time; the promise handed to [waitUntil] is fulfilled all the same,
    so the install step completes successfully, with no asset cached. *)
Theorem install_swallows_fetch_failure cs path :
  path ∈ STATIC_ASSETS →
  network env (asset_url env path) = None →
  let d := dispatch (on_install env) cs in
  succeeded d = true ∧
  (∃ e, cache_failed e ∈ effects d) ∧
  filter is_write (effects d) = [] ∧
  (∀ name u, Store.lookup name u (storage d) = Store.lookup name u cs) ∧
  (filter is_fetch (effects d) = [] ∨
   filter is_fetch (effects d) = install_fetches env).
Proof.
  intros Hin Hn d. subst d. rewrite install_run.
  rewrite (fetch_all_fails _ (Request_new env path "reload"))
    by (done || by apply asset_requested).
  cbn zeta. destruct (store_fails env (OpOpen CACHE_NAME)).
  - simpl. repeat split; [|by left].
    exists StoreError. rewrite !elem_of_cons. tauto.
  - cbn [storage effects settled succeeded forallb fulfilled andb].
    split; [done|]. split; [|split; [|split]].
    + exists TypeError. rewrite !elem_of_app, list_elem_of_singleton. tauto.
    + rewrite !filter_app. unfold install_fetches.
      by rewrite filter_write_fetches.
    + intros name u. apply lookup_open.
    + right. rewrite !filter_app. unfold install_fetches.
      by rewrite filter_fetch_fetches.
Qed.

(** C8. Every entry written during install is keyed by the URL of a
    static asset, in the current namespace, and a lookup of that URL in
    that namespace afterwards returns the entry unchanged. *)
Theorem install_round_trip cs name u e :
  let d := dispatch (on_install env) cs in
  CacheWrite name u e ∈ effects d →
  name = CACHE_NAME ∧
  (∃ path, path ∈ STATIC_ASSETS ∧ u = asset_url env path) ∧
  Store.lookup name u (storage d) = Some e.
Proof.
  intros d. subst d. rewrite install_run. cbn zeta.
  destruct (store_fails env (OpOpen CACHE_NAME)).
  { simpl. rewrite !elem_of_cons, elem_of_nil. intros [?|[?|[?|[]]]]; done. }
  destruct (fetch_all env (install_requests env)) as [entries|] eqn:Hall;
    [destruct (store_fails env (OpAddAll CACHE_NAME))|];
    cbn [storage effects];
    rewrite !elem_of_app, !elem_of_cons, ?elem_of_nil;
    intros Hin;
    repeat match type of Hin with
      | _ ∨ _ => destruct Hin as [Hin|Hin]
      | _ = _ => discriminate Hin
      | False => destruct Hin
      end;
    try (by apply fetches_not_written in Hin).
  apply list_elem_of_fmap in Hin as ([u' e'] & [= -> -> ->] & Hin).
  destruct (fetch_all_entries _ _ _ _ Hall Hin) as (Hn & _ & q & Hq & Hu).
  split; [done|]. split.
  - apply install_request_url in Hq as (path & ? & ?). exists path.
    split; [done|]. congruence.
  - unfold Store.lookup. rewrite get_update, decide_True, get_open by done.
    simpl. apply (put_all_lookup (network env)); [|done].
    intros u1 e1 H1. by destruct (fetch_all_entries _ _ _ _ Hall H1).
Qed.

(** When the store works and every static asset is served with a success
    status, each of them is written, so that C8 speaks about all of them. *)
Lemma install_writes_assets cs path :
  store_fails env (OpOpen CACHE_NAME) = false →
  store_fails env (OpAddAll CACHE_NAME) = false →
  (∀ q, q ∈ install_requests env →
        ∃ r, network env (url q) = Some r ∧ ok r = true ∧ status r ≠ 206) →
  path ∈ STATIC_ASSETS →
  ∃ e, CacheWrite CACHE_NAME (asset_url env path) e
         ∈ effects (dispatch (on_install env) cs).
Proof.
  intros Ho Ha Hserved Hin. rewrite install_run, Ho, Ha. cbn zeta.
  assert (∃ entries, fetch_all env (install_requests env) = Some entries)
    as [entries Hall].
  { revert Hserved. generalize (install_requests env).
    induction l as [|q l IH]; intros Hserved; simpl; [by eexists|].
    destruct (Hserved q) as (r & -> & -> & Hst); [by left|].
    rewrite bool_decide_eq_true_2 by done. simpl.
    destruct IH as [rest ->]; [|by eexists].
    intros q' Hq'. apply Hserved. by right. }
  rewrite Hall. cbn [effects].
  destruct (fetch_all_covers _ _ _ Hall (asset_requested path Hin)) as [e He].
  exists e. rewrite !elem_of_app. do 3 right.
  apply list_elem_of_fmap. by exists (asset_url env path, e).
Qed.

End InstallListener.

(** ** The activate listener *)

Section ActivateListener.

Variable env : Env.
Implicit Types (cs : CacheStorage) (names : list string).

Lemma bind_run {A B} (m : Sync A) (k : A → Sync B) cs :
  bind m k cs =
    let '(a, cs1, t1) := m cs in
    let '(b, cs2, t2) := k a cs1 in
    (b, cs2, t1 ++ t2).
Proof. reflexivity. Qed.

Lemma ret_run {A} (a : A) cs : ret a cs = (a, cs, []).
Proof. reflexivity. Qed.

Lemma console_log_run msg cs : console_log msg cs = (tt, cs, [ConsoleLog msg]).
Proof. reflexivity. Qed.

(** The callback of [cacheNames.map]: it logs and starts the deletions;
    the storage is not changed yet. *)
Lemma map_deletions names cs :
  mapS (λ cacheName,
          if decide (cacheName ≠ CACHE_NAME) then
            console_log ("[Service Worker] Deleting old cache: " +:+ cacheName) ;;
            ret (then_ (caches_delete env cacheName) (λ b, ret (resolve (Some b))))
          else ret (resolve None)) names cs
  = (deletions env names, cs, deletion_logs names).
Proof.
  unfold deletions, deletion_logs.
  induction names as [|n names IH]; [done|].
  cbn [mapS]. rewrite bind_run, fmap_cons, filter_cons.
  destruct (decide (n ≠ CACHE_NAME)) as [Hn|Hn].
  - rewrite bind_run, console_log_run, !ret_run. cbv beta iota zeta.
    rewrite bind_run, IH, ret_run. by rewrite !app_nil_r.
  - rewrite ret_run. cbv beta iota zeta.
    rewrite bind_run, IH, ret_run. by rewrite !app_nil_r.
Qed.

Lemma purge_cons_kept n names cs :
  n = CACHE_NAME ∨ store_fails env (OpDelete n) = true →
  purge env (n :: names) cs = purge env names cs.
Proof.
  intros H. unfold purge, doomed. rewrite filter_cons_False; [done|].
  intros [? ?]. destruct H; congruence.
Qed.

Lemma purge_cons_deleted n names cs :
  n ≠ CACHE_NAME → store_fails env (OpDelete n) = false →
  purge env (n :: names) cs = purge env names (Store.delete n cs).
Proof.
  intros Hn Hf. unfold purge, doomed, Store.delete.
  rewrite filter_cons_True by done. rewrite list_filter_filter.
  apply list_filter_iff. intros [m c]. simpl. rewrite not_elem_of_cons. tauto.
Qed.

Lemma purge_nil cs : purge env [] cs = cs.
Proof.
  unfold purge. simpl. induction cs as [|nc cs IH]; [done|].
  rewrite filter_cons_True by apply not_elem_of_nil. by f_equal.
Qed.

Lemma delete_run n cs :
  then_ (caches_delete env n) (λ b, ret (resolve (Some b))) cs =
    if store_fails env (OpDelete n) then (Rejected StoreError, cs, [])
    else (Fulfilled (Some (bool_decide (is_Some (Store.get n cs)))),
          Store.delete n cs, [CacheDelete n]).
Proof.
  unfold then_, caches_delete. rewrite bind_run.
  by destruct (store_fails env (OpDelete n)).
Qed.

(** [Promise.all] over the deletions: the doomed namespaces are deleted
    one after the other; the result is fulfilled when no deletion fails. *)
Lemma all_deletions names cs :
  ∃ o, Promise_all (deletions env names) cs =
         (o, purge env names cs, CacheDelete <$> doomed env names) ∧
       fulfilled o = deletable env names ∧
       (fulfilled o = false → o = Rejected StoreError).
Proof.
  revert cs. induction names as [|n names IH]; intros cs.
  { exists (Fulfilled []). rewrite purge_nil.
    split; [reflexivity|]. split; [reflexivity|discriminate]. }
  unfold deletions. rewrite fmap_cons. fold (deletions env names).
  cbn [Promise_all deletable forallb]. rewrite bind_run.
  destruct (decide (n ≠ CACHE_NAME)) as [Hn|Hn].
  - rewrite delete_run, (bool_decide_eq_false_2 (n = CACHE_NAME)) by done.
    destruct (store_fails env (OpDelete n)) eqn:Hf; cbv beta iota zeta;
      rewrite bind_run.
    + destruct (IH cs) as (o & -> & Hok & Hrej).
      exists (Rejected StoreError). rewrite ret_run.
      rewrite purge_cons_kept by (by right).
      unfold doomed. rewrite filter_cons_False by (intros [_ ?]; congruence).
      by rewrite !app_nil_r.
    + destruct (IH (Store.delete n cs)) as (o & -> & Hok & Hrej).
      rewrite purge_cons_deleted, ret_run by done.
      unfold doomed at 2. rewrite filter_cons_True by done.
      fold (doomed env names). rewrite app_nil_r.
      eexists. split; [reflexivity|]. cbn [negb orb andb].
      destruct o; split; auto; discriminate.
  - apply dec_stable in Hn.
    unfold resolve at 1. rewrite ret_run. cbv beta iota zeta.
    rewrite bind_run. destruct (IH cs) as (o & -> & Hok & Hrej).
    rewrite purge_cons_kept, ret_run by (by left).
    unfold doomed at 2. rewrite filter_cons_False by tauto.
    fold (doomed env names).
    rewrite (bool_decide_eq_true_2 (n = CACHE_NAME)) by done.
    rewrite app_nil_r. cbn [app].
    eexists. split; [reflexivity|]. cbn [negb orb andb].
    destruct o; split; auto; discriminate.
Qed.

(** The ways the activate step can go. *)
Lemma activate_run cs :
  ∃ o, dispatch (on_activate env) cs =
         (let prologue := [ConsoleLog "[Service Worker] Activating..."; ClientsClaim] in
          if store_fails env OpKeys then
            {| storage := cs; effects := prologue;
               settled := [Rejected StoreError]; answer := None |}
          else
            {| storage := purge env (Store.keys cs) cs;
               effects := prologue ++ deletion_logs (Store.keys cs) ++
                          (CacheDelete <$> doomed env (Store.keys cs));
               settled := [o]; answer := None |}) ∧
       fulfilled o = deletable env (Store.keys cs).
Proof.
  destruct (all_deletions (Store.keys cs) cs) as (o & Hall & Hok & _).
  exists (match o with Fulfilled _ => Fulfilled tt | Rejected e => Rejected e end).
  split; [|by destruct o].
  unfold_run. destruct (store_fails env OpKeys); [done|].
  rewrite map_deletions, Hall. by rewrite ?app_nil_r.
Qed.

Lemma filter_agree {A} (P Q : A → Prop)
    `{!∀ x, Decision (P x), !∀ x, Decision (Q x)} (l : list A) :
  (∀ x, x ∈ l → P x ↔ Q x) → filter P l = filter Q l.
Proof.
  induction l as [|a l IH]; intros Hpq; [done|].
  rewrite !filter_cons.
  assert (P a ↔ Q a) as Ha by (apply Hpq; by left).
  rewrite IH by (intros x Hx; apply Hpq; by right).
  destruct (decide (P a)), (decide (Q a)); tauto.
Qed.

(** When no deletion fails, only the current namespace survives. *)
Lemma purge_all cs :
  (∀ n, store_fails env (OpDelete n) = false) →
  purge env (Store.keys cs) cs = filter (λ nc : string * Cache, nc.1 = CACHE_NAME) cs.
Proof.
  intros Hf. unfold purge. apply filter_agree. intros [n c] Hin. simpl.
  unfold doomed. rewrite list_elem_of_filter. split.
  - intros Hnot. destruct (decide (n = CACHE_NAME)) as [|Hne]; [done|].
    exfalso. apply Hnot. repeat split; [done..|].
    unfold Store.keys. apply list_elem_of_fmap. by exists (n, c).
  - intros -> [[Hne _] _]. by apply Hne.
Qed.

Lemma get_filter_same name cs :
  Store.get name (filter (λ nc : string * Cache, nc.1 = name) cs) = Store.get name cs.
Proof.
  induction cs as [|[n c] cs IH]; [done|].
  rewrite filter_cons. simpl. case_decide; simpl; [by rewrite decide_True|done].
Qed.

Lemma deletable_all names :
  (∀ n, store_fails env (OpDelete n) = false) → deletable env names = true.
Proof.
  intros Hf. unfold deletable. apply forallb_forall. intros n _.
  by rewrite Hf, orb_true_r.
Qed.

(** C3. After the activate step, when the store operations succeed,
    every namespace whose name differs from [CACHE_NAME] is deleted and
    the current one is kept with its entries: the names left are all
    [CACHE_NAME], so a namespace of an older version is gone. *)
Theorem activate_purges_old_namespaces cs :
  store_fails env OpKeys = false →
  (∀ n, store_fails env (OpDelete n) = false) →
  let d := dispatch (on_activate env) cs in
  storage d = filter (λ nc : string * Cache, nc.1 = CACHE_NAME) cs ∧
  (∀ n, n ∈ Store.keys cs → n ≠ CACHE_NAME → n ∉ Store.keys (storage d)) ∧
  (∀ n, n ∈ Store.keys (storage d) → n = CACHE_NAME) ∧
  Store.get CACHE_NAME (storage d) = Store.get CACHE_NAME cs ∧
  succeeded d = true.
Proof.
  intros Hk Hf d. subst d.
  destruct (activate_run cs) as (o & -> & Hok). rewrite Hk. cbn zeta.
  cbn [storage settled succeeded forallb andb]. rewrite purge_all by done.
  assert (∀ n, n ∈ Store.keys (filter (λ nc : string * Cache, nc.1 = CACHE_NAME) cs)
               → n = CACHE_NAME) as Hleft.
  { intros n ([n' c] & -> & [Hn _]%list_elem_of_filter)%list_elem_of_fmap. done. }
  split; [done|]. split; [|split; [done|split]].
  - intros n _ Hne Hin. by apply Hne, Hleft.
  - apply get_filter_same.
  - by rewrite Hok, deletable_all.
Qed.

(** C2, amended. The activate listener claims the clients immediately,
    in its synchronous body, once; the deletions of the namespaces that
    do not match the current version tag are carried out after that
    call, by the promise handed to [waitUntil]. *)
Theorem activate_claims_immediately cs :
  let d := dispatch (on_activate env) cs in
  ∃ t, effects d = [ConsoleLog "[Service Worker] Activating..."; ClientsClaim] ++ t ∧
       (ClientsClaim ∉ t) ∧
       (∀ n, CacheDelete n ∈ effects d → CacheDelete n ∈ t) ∧
       (∀ n, store_fails env OpKeys = false →
             store_fails env (OpDelete n) = false →
             n ∈ Store.keys cs → n ≠ CACHE_NAME → CacheDelete n ∈ t).
Proof.
  intros d. subst d. destruct (activate_run cs) as (o & -> & _). cbn zeta.
  destruct (store_fails env OpKeys).
  - exists []. cbn [effects]. split; [done|]. split; [apply not_elem_of_nil|].
    split; [|done]. intros n. rewrite !elem_of_cons. by intros [|[|]].
  - exists (deletion_logs (Store.keys cs) ++ (CacheDelete <$> doomed env (Store.keys cs))).
    cbn [effects]. split; [done|]. split; [|split].
    + rewrite elem_of_app. unfold deletion_logs.
      intros [(? & ? & _)%list_elem_of_fmap|(? & ? & _)%list_elem_of_fmap]; done.
    + intros n. cbn [app]. rewrite !elem_of_cons. by intros [|[|]].
    + intros n _ Hf Hin Hne. apply elem_of_app. right.
      apply list_elem_of_fmap_2. unfold doomed. by apply list_elem_of_filter.
Qed.

End ActivateListener.

(** ** Stored entries have a success status *)

(** The worker only stores responses with a success status: an install
    stores what [cache.addAll] accepted, the interceptor stores responses
    with status 200, and the activate step only deletes. *)
Section StoredOk.

Variable env : Env.
Implicit Types (cs : CacheStorage) (c : Cache).

Lemma stored_ok_open name cs : stored_ok cs → stored_ok (Store.open name cs).
Proof.
  intros Hok. unfold Store.open. destruct (Store.get name cs); [done|].
  intros n c u r [Hin|Hin%list_elem_of_singleton]%elem_of_app; [by eapply Hok|].
  injection Hin as -> ->. by rewrite lookup_empty.
Qed.

Lemma stored_ok_update name f cs :
  (∀ c, entries_ok c → entries_ok (f c)) →
  stored_ok cs → stored_ok (Store.update name f cs).
Proof.
  intros Hf Hok n c u r ([n' c'] & Heq & Hin)%list_elem_of_fmap.
  simpl in Heq. assert (entries_ok c') as Hc' by (intros ??; by eapply Hok).
  case_decide; injection Heq as -> ->; [by apply Hf|by apply Hc'].
Qed.

Lemma stored_ok_filter (P : string * Cache → Prop) `{!∀ x, Decision (P x)} cs :
  stored_ok cs → stored_ok (filter P cs).
Proof. intros Hok n c u r [_ Hin]%list_elem_of_filter. by eapply Hok. Qed.

Lemma entries_ok_insert u r c :
  ok r = true → entries_ok c → entries_ok (<[u := r]> c).
Proof.
  intros Hr Hc u' r'. destruct (decide (u = u')) as [->|Hne].
  - rewrite lookup_insert_eq. by intros [= <-].
  - rewrite lookup_insert_ne by done. apply Hc.
Qed.

Lemma entries_ok_put_all entries c :
  (∀ u e, (u, e) ∈ entries → ok e = true) →
  entries_ok c → entries_ok (Store.put_all entries c).
Proof.
  unfold Store.put_all. revert c.
  induction entries as [|[u e] entries IH]; intros c He Hc; [done|].
  simpl. apply IH.
  - intros u' e' Hin. apply (He u'). by right.
  - apply entries_ok_insert; [|done]. apply (He u). by left.
Qed.

Lemma stored_ok_install cs :
  stored_ok cs → stored_ok (storage (dispatch (on_install env) cs)).
Proof.
  intros Hok. rewrite install_run. cbn zeta.
  destruct (store_fails env (OpOpen CACHE_NAME)); [done|].
  destruct (fetch_all env (install_requests env)) as [entries|] eqn:Hall;
    [destruct (store_fails env (OpAddAll CACHE_NAME))|];
    cbn [storage]; try by apply stored_ok_open.
  apply stored_ok_update; [|by apply stored_ok_open].
  intros c. apply entries_ok_put_all. intros u e Hin.
  by destruct (fetch_all_entries env _ _ _ _ Hall Hin) as (_ & ? & _).
Qed.

Lemma stored_ok_activate cs :
  stored_ok cs → stored_ok (storage (dispatch (on_activate env) cs)).
Proof.
  intros Hok. destruct (activate_run env cs) as (o & -> & _). cbn zeta.
  destruct (store_fails env OpKeys); [done|]. by apply stored_ok_filter.
Qed.

Lemma stored_ok_fetch request cs :
  stored_ok cs → stored_ok (storage (dispatch (on_fetch env request) cs)).
Proof.
  intros Hok.
  destruct (decide (eligible env request)) as [He|He].
  2:{ rewrite fetch_skipped; [done|]. unfold eligible in He.
      destruct (decide (method request = "GET")); [|by left].
      right. intros ?. by apply He. }
  destruct (store_fails env (OpMatch (url request))) eqn:Hs.
  { by rewrite fetch_read_failure. }
  destruct (Store.match_ (url request) cs) as [cached|] eqn:Hr.
  { by rewrite (fetch_hit env request cs cached). }
  assert (misses env request cs) as Hmiss by done.
  destruct (network env (url request)) as [r|] eqn:Hn.
  - destruct (decide (status r = 200)) as [Hst|Hst];
      [destruct (decide (type r = Basic)) as [Hty|Hty]|].
    + rewrite (fetch_miss_cached env request cs r) by done.
      destruct (store_fails env (OpOpen CACHE_NAME)); [done|].
      destruct (store_fails env (OpPut CACHE_NAME (url request)));
        cbn [storage answered]; [by apply stored_ok_open|].
      apply stored_ok_update; [|by apply stored_ok_open].
      intros c. apply entries_ok_insert. unfold ok. rewrite Hst.
      by apply bool_decide_eq_true_2.
    + rewrite (fetch_miss_uncached env request cs r); [done..|by right].
    + rewrite (fetch_miss_uncached env request cs r); [done..|by left].
  - destruct (decide (mode request = "navigate")).
    + rewrite fetch_miss_offline_navigation by done.
      by destruct (store_fails env (OpMatch (offline_url env))).
    + by rewrite fetch_miss_offline_resource.
Qed.

End StoredOk.

(** ** The scenarios, checked *)

Section Checked.

Import Scenario.

(** C1, counterexample. The logo cannot be fetched during install, and
    the install step completes successfully all the same. *)
Lemma install_completes_despite_failed_fetch :
  "/logo.png" ∈ STATIC_ASSETS ∧
  network logo_missing (asset_url logo_missing "/logo.png") = None ∧
  succeeded (dispatch (on_install logo_missing) []) = true.
Proof. split; [set_solver|]. split; vm_compute; reflexivity. Qed.

Lemma install_swallows_fetch_failure_witness :
  "/logo.png" ∈ STATIC_ASSETS ∧
  network logo_missing (asset_url logo_missing "/logo.png") = None ∧
  let d := dispatch (on_install logo_missing) [] in
  succeeded d = true ∧
  (∃ e, cache_failed e ∈ effects d) ∧
  filter is_write (effects d) = [] ∧
  (∀ name u, Store.lookup name u (storage d) = Store.lookup name u []) ∧
  (filter is_fetch (effects d) = [] ∨
   filter is_fetch (effects d) = install_fetches logo_missing).
Proof.
  assert ("/logo.png" ∈ STATIC_ASSETS) as Hin by set_solver.
  assert (network logo_missing (asset_url logo_missing "/logo.png") = None)
    as Hn by (vm_compute; reflexivity).
  split; [exact Hin|]. split; [exact Hn|].
  exact (install_swallows_fetch_failure logo_missing [] "/logo.png" Hin Hn).
Defined.

(** C2, counterexample. With the namespace of an older version in the
    storage, the clients are claimed before that namespace is deleted,
    not after. *)
Lemma activate_claims_before_deleting :
  let t := effects (dispatch (on_activate online) stale) in
  precedes (CacheDelete "quang-hugo-v0") ClientsClaim t = false ∧
  precedes ClientsClaim (CacheDelete "quang-hugo-v0") t = true.
Proof. split; vm_compute; reflexivity. Qed.

Lemma activate_claims_immediately_witness :
  let d := dispatch (on_activate online) stale in
  ∃ t, effects d = [ConsoleLog "[Service Worker] Activating..."; ClientsClaim] ++ t ∧
       (ClientsClaim ∉ t) ∧
       (∀ n, CacheDelete n ∈ effects d → CacheDelete n ∈ t) ∧
       (∀ n, store_fails online OpKeys = false →
             store_fails online (OpDelete n) = false →
             n ∈ Store.keys stale → n ≠ CACHE_NAME → CacheDelete n ∈ t).
Proof. exact (activate_claims_immediately online stale). Defined.

Lemma activate_purges_old_namespaces_witness :
  store_fails online OpKeys = false ∧
  (∀ n, store_fails online (OpDelete n) = false) ∧
  let d := dispatch (on_activate online) stale in
  storage d = filter (λ nc : string * Cache, nc.1 = CACHE_NAME) stale ∧
  (∀ n, n ∈ Store.keys stale → n ≠ CACHE_NAME → n ∉ Store.keys (storage d)) ∧
  (∀ n, n ∈ Store.keys (storage d) → n = CACHE_NAME) ∧
  Store.get CACHE_NAME (storage d) = Store.get CACHE_NAME stale ∧
  succeeded d = true.
Proof.
  split; [reflexivity|]. split; [reflexivity|].
  exact (activate_purges_old_namespaces online stale eq_refl (λ _, eq_refl)).
Defined.

Lemma fetch_pass_through_witness :
  (method (post "/comment") ≠ "GET" ∨
   url_origin online (url (post "/comment")) ≠ location_origin online) ∧
  let d := dispatch (on_fetch online (post "/comment")) installed in
  d = passed_through installed ∧
  answer d = None ∧
  filter touches_store (effects d) = [] ∧
  storage d = installed.
Proof.
  assert (method (post "/comment") ≠ "GET") as Hm by discriminate.
  split; [by left|].
  exact (fetch_pass_through online (post "/comment") installed (or_introl Hm)).
Defined.

(** C5, counterexample. The current namespace holds the new home page,
    and the answer is the old one, found first in the namespace of the
    older version. *)
Lemma fetch_answers_from_stale_namespace :
  eligible online (get "/") ∧
  Store.lookup CACHE_NAME (url (get "/")) stale = Some (page "new home") ∧
  answer (dispatch (on_fetch online (get "/")) stale)
    = Some (Fulfilled (Some (page "old home"))) ∧
  page "old home" ≠ page "new home".
Proof.
  split; [by vm_compute|]. split; [by vm_compute|].
  split; [by vm_compute|discriminate].
Qed.

Lemma fetch_answers_first_match_witness :
  eligible online (get "/") ∧
  store_fails online (OpMatch (url (get "/"))) = false ∧
  Store.match_ (url (get "/")) stale = Some (page "old home") ∧
  let d := dispatch (on_fetch online (get "/")) stale in
  answer d = Some (Fulfilled (Some (page "old home"))) ∧
  filter is_fetch (effects d) = [] ∧
  storage d = stale ∧
  (NoDup (Store.keys stale) →
   (∀ n c, (n, c) ∈ stale → n ≠ CACHE_NAME → c !! url (get "/") = None) →
   Store.lookup CACHE_NAME (url (get "/")) stale = Some (page "old home")).
Proof.
  assert (eligible online (get "/")) as He by (by vm_compute).
  assert (Store.match_ (url (get "/")) stale = Some (page "old home"))
    as Hr by (by vm_compute).
  split; [exact He|]. split; [reflexivity|]. split; [exact Hr|].
  exact (fetch_answers_first_match online (get "/") stale _ He eq_refl Hr).
Defined.

Lemma fetch_caches_only_basic_success_witness :
  let r := {| status := 404; statusText := "Not Found"; type := Basic;
              headers := []; body := "" |} in
  let d := dispatch (on_fetch not_found (get "/missing")) installed in
  (misses not_found (get "/missing") installed ∧
   network not_found (url (get "/missing")) = Some r ∧
   ¬ (ok r = true ∧ type r = Basic)) ∧
  (∀ name u r', CacheWrite name u r' ∈ effects d → ok r' = true ∧ type r' = Basic) ∧
  answer d = Some (Fulfilled (Some r)) ∧
  storage d = installed ∧
  filter is_write (effects d) = [].
Proof.
  intros r d.
  assert (misses not_found (get "/missing") installed) as Hmiss by (by vm_compute).
  assert (¬ (ok r = true ∧ type r = Basic)) as Hno by (intros [? _]; discriminate).
  split; [by repeat split|].
  destruct (fetch_caches_only_basic_success not_found (get "/missing") installed)
    as [Hw Hrest].
  split; [exact Hw|]. exact (Hrest r Hmiss eq_refl Hno).
Defined.

(** C7, counterexample. The install could not fetch the logo, so nothing
    was cached; a navigation while the network is down is then answered
    with [undefined], not with a document that has a success status. *)
Lemma offline_navigation_without_document :
  let cs := storage (dispatch (on_install logo_missing) []) in
  let d := dispatch (on_fetch offline (navigate "/about")) cs in
  misses offline (navigate "/about") cs ∧
  network offline (url (navigate "/about")) = None ∧
  mode (navigate "/about") = "navigate" ∧
  answer d = Some (Fulfilled None) ∧
  ¬ (∃ doc, answer d = Some (Fulfilled (Some doc)) ∧ ok doc = true).
Proof.
  assert (answer (dispatch (on_fetch offline (navigate "/about"))
                    (storage (dispatch (on_install logo_missing) [])))
          = Some (Fulfilled None)) as Ha by (by vm_compute).
  cbn zeta. split; [by vm_compute|]. do 2 (split; [reflexivity|]).
  split; [exact Ha|]. rewrite Ha. by intros (doc & [=] & _).
Qed.

Lemma fetch_offline_answer_witness :
  let d := dispatch (on_fetch offline (navigate "/about")) installed in
  misses offline (navigate "/about") installed ∧
  network offline (url (navigate "/about")) = None ∧
  Store.match_ (offline_url offline) installed = Some (page "offline") ∧
  answer d = Some (Fulfilled (Some (page "offline"))).
Proof.
  intros d.
  assert (misses offline (navigate "/about") installed) as Hmiss by (by vm_compute).
  assert (Store.match_ (offline_url offline) installed = Some (page "offline"))
    as Hdoc by (by vm_compute).
  do 3 (split; [done|]).
  destruct (fetch_offline_answer offline (navigate "/about") installed Hmiss eq_refl)
    as [Hnav _].
  exact (proj1 (Hnav eq_refl eq_refl (page "offline") Hdoc)).
Defined.

Lemma install_round_trip_witness :
  let d := dispatch (on_install online) [] in
  let u := asset_url online "/offline.html" in
  CacheWrite CACHE_NAME u (page u) ∈ effects d ∧
  Store.lookup CACHE_NAME u (storage d) = Some (page u).
Proof.
  intros d u.
  assert (CacheWrite CACHE_NAME u (page u) ∈ effects d) as Hin
    by (apply (bool_decide_unpack _); vm_compute; exact I).
  split; [exact Hin|].
  exact (proj2 (proj2 (install_round_trip online [] CACHE_NAME u (page u) Hin))).
Defined.

(** C9, counterexample. The read of the storage fails while the network
    would have answered: the answer is rejected and the network is not
    asked, so the failed read is not treated as a cache miss. *)
Lemma failed_read_is_not_a_miss :
  let d := dispatch (on_fetch unreadable (get "/")) installed in
  eligible unreadable (get "/") ∧
  store_fails unreadable (OpMatch (url (get "/"))) = true ∧
  network unreadable (url (get "/")) = Some (page (url (get "/"))) ∧
  answer d = Some (Rejected StoreError) ∧
  filter is_fetch (effects d) = [].
Proof. cbn zeta. split; [by vm_compute|]. by repeat split. Qed.

Lemma fetch_store_failure_witness :
  let request := get "/about" in
  let r := page (url request) in
  let d := dispatch (on_fetch quota_exceeded request) installed in
  eligible quota_exceeded request ∧
  misses quota_exceeded request installed ∧
  network quota_exceeded (url request) = Some r ∧
  store_fails quota_exceeded (OpPut CACHE_NAME (url request)) = true ∧
  answer d = Some (Fulfilled (Some r)) ∧
  filter is_write (effects d) = [] ∧
  ∀ name u, Store.lookup name u (storage d) = Store.lookup name u installed.
Proof.
  intros request r d.
  assert (misses quota_exceeded request installed) as Hmiss by (by vm_compute).
  split; [apply Hmiss|]. do 3 (split; [done|]).
  destruct (fetch_store_failure quota_exceeded request installed (proj1 Hmiss))
    as [_ Hwrite].
  exact (Hwrite r Hmiss eq_refl eq_refl eq_refl (or_intror eq_refl)).
Defined.

Lemma fetch_offline_navigation_undefined_witness :
  let request := navigate "/about" in
  misses offline request bare ∧
  network offline (url request) = None ∧
  mode request = "navigate" ∧
  store_fails offline (OpMatch (offline_url offline)) = false ∧
  (∀ name c, (name, c) ∈ bare → c !! offline_url offline = None) ∧
  dispatch (on_fetch offline request) bare =
    answered bare
      [CacheRead (url request); NetFetch (url request); CacheRead (offline_url offline)]
      (Fulfilled None).
Proof.
  intros request.
  assert (misses offline request bare) as Hmiss by (by vm_compute).
  assert (∀ name c, (name, c) ∈ bare → c !! offline_url offline = None) as Habsent.
  { intros name c Hin%list_elem_of_singleton. injection Hin as -> ->.
    apply lookup_empty. }
  do 4 (split; [done|]). split; [exact Habsent|].
  exact (fetch_offline_navigation_undefined offline request bare
           Hmiss eq_refl eq_refl eq_refl Habsent).
Defined.

End Checked.

(** * Further properties of the worker *)

(** ** More on the cache storage *)

Section StoreMore.

Implicit Types (cs : CacheStorage) (c : Cache) (name u : string).

Lemma lookup_update name n u f cs :
  Store.lookup n u (Store.update name f cs) =
    if decide (n = name) then c ← Store.get n cs; f c !! u
    else Store.lookup n u cs.
Proof.
  unfold Store.lookup. rewrite get_update.
  case_decide; [|done]. by destruct (Store.get n cs).
Qed.

Lemma keys_update name f cs : Store.keys (Store.update name f cs) = Store.keys cs.
Proof.
  unfold Store.keys, Store.update. rewrite <- list_fmap_compose.
  apply list_fmap_ext. intros i [n c] _. simpl. by case_decide.
Qed.

Lemma get_is_Some_keys name cs : is_Some (Store.get name cs) ↔ name ∈ Store.keys cs.
Proof.
  unfold Store.keys. induction cs as [|[n c] cs IH]; simpl.
  - rewrite elem_of_nil. split; [by intros [? [=]]|done].
  - rewrite elem_of_cons. simpl. case_decide as Hn.
    + subst n. split; [by left|by eexists].
    + rewrite IH. split; [by right|]. intros [->|?]; done.
Qed.

Lemma keys_open name cs :
  Store.keys (Store.open name cs) =
    if decide (name ∈ Store.keys cs) then Store.keys cs else Store.keys cs ++ [name].
Proof.
  unfold Store.open. case_decide as Hin.
  - apply get_is_Some_keys in Hin as [c ->]. done.
  - destruct (Store.get name cs) as [c|] eqn:E.
    + exfalso. apply Hin, get_is_Some_keys. by eexists.
    + unfold Store.keys. by rewrite fmap_app.
Qed.

Lemma open_idem name cs : Store.open name (Store.open name cs) = Store.open name cs.
Proof.
  unfold Store.open at 1. by rewrite get_open.
Qed.

Lemma open_present name cs : is_Some (Store.get name cs) → Store.open name cs = cs.
Proof. intros [c Hc]. unfold Store.open. by rewrite Hc. Qed.

Lemma update_update name f g cs :
  Store.update name g (Store.update name f cs) = Store.update name (g ∘ f) cs.
Proof.
  unfold Store.update. rewrite <- list_fmap_compose.
  apply list_fmap_ext. intros i [n c] _. simpl.
  destruct (decide (n = name)) as [Hn|Hn]; simpl;
    [by rewrite decide_True|by rewrite decide_False].
Qed.

Lemma update_ext name f g cs :
  (∀ c, f c = g c) → Store.update name f cs = Store.update name g cs.
Proof.
  intros Hfg. unfold Store.update. apply list_fmap_ext. intros i [n c] _. simpl.
  by rewrite Hfg.
Qed.

(** A URL that is no key of [entries] keeps its entry. *)
Lemma put_all_lookup_other entries c u :
  (∀ e, (u, e) ∉ entries) → Store.put_all entries c !! u = c !! u.
Proof.
  unfold Store.put_all. revert c.
  induction entries as [|[u0 e0] entries IH]; intros c Hno; [done|].
  simpl. rewrite IH.
  - apply lookup_insert_ne. intros ->. apply (Hno e0). by left.
  - intros e He. apply (Hno e). by right.
Qed.

(** The entry of a key of [entries] does not depend on what was there. *)
Lemma put_all_lookup_key entries c c' u e :
  (u, e) ∈ entries → Store.put_all entries c !! u = Store.put_all entries c' !! u.
Proof.
  unfold Store.put_all. revert c c'.
  induction entries as [|[u0 e0] entries IH] using rev_ind; intros c c' Hin.
  { by apply elem_of_nil in Hin. }
  rewrite !foldl_app. simpl.
  destruct (decide (u0 = u)) as [->|Hne].
  - by rewrite !lookup_insert_eq.
  - rewrite !lookup_insert_ne by done.
    apply elem_of_app in Hin as [Hin|Hin%list_elem_of_singleton]; [by apply IH|].
    congruence.
Qed.

Lemma put_all_idem entries c :
  Store.put_all entries (Store.put_all entries c) = Store.put_all entries c.
Proof.
  apply map_eq. intros u.
  destruct (decide (u ∈ entries.*1)) as [Hin|Hno].
  - apply list_elem_of_fmap in Hin as ([u' e] & -> & Hin).
    by apply (put_all_lookup_key _ _ _ _ e).
  - apply put_all_lookup_other. intros e He. apply Hno.
    apply list_elem_of_fmap. by exists (u, e).
Qed.




Lemma get_filter_kept (P : string * Cache → Prop) `{!∀ x, Decision (P x)} name cs :
  (∀ c, P (name, c)) → Store.get name (filter P cs) = Store.get name cs.
Proof.
  intros Hkeep. induction cs as [|[n c] cs IH]; [done|].
  rewrite filter_cons. simpl. destruct (decide (P (n, c))) as [|Hno]; simpl.
  - by rewrite IH.
  - rewrite decide_False; [done|]. intros ->. by apply Hno.
Qed.

Lemma filter_all {A} (P : A → Prop) `{!∀ x, Decision (P x)} (l : list A) :
  (∀ x, x ∈ l → P x) → filter P l = l.
Proof.
  induction l as [|a l IH]; intros Hall; [done|].
  rewrite filter_cons_True by (apply Hall; by left).
  f_equal. apply IH. intros x Hx. apply Hall. by right.
Qed.

Lemma filter_eq_NoDup (x : string) (l : list string) :
  NoDup l → x ∈ l → filter (λ y, y = x) l = [x].
Proof.
  induction l as [|a l IH]; intros Hnd Hin; [by apply elem_of_nil in Hin|].
  apply NoDup_cons in Hnd as [Ha Hnd]. rewrite filter_cons.
  case_decide as Hax.
  - subst a. f_equal. clear IH Hin Hnd.
    induction l as [|b l IH]; [done|].
    rewrite filter_cons_False; [|intros ->; apply Ha; by left].
    apply IH. intros Hx. apply Ha. by right.
  - apply IH; [done|]. apply elem_of_cons in Hin as [->|]; done.
Qed.

End StoreMore.

(** ** More on the install listener *)

Section InstallMore.

Variable env : Env.
Implicit Types (cs : CacheStorage).


(** The entry of a static asset among those [cache.addAll] stores. *)
Lemma asset_entry entries path c :
  fetch_all env (install_requests env) = Some entries →
  path ∈ STATIC_ASSETS →
  ∃ e, network env (asset_url env path) = Some e ∧
       Store.put_all entries c !! asset_url env path = Some e.
Proof.
  intros Hall Hin.
  destruct (fetch_all_covers env _ _ _ Hall (asset_requested env path Hin)) as [e He].
  exists e. destruct (fetch_all_entries env _ _ _ _ Hall He) as (Hn & _).
  split; [done|]. apply (put_all_lookup (network env)); [|done].
  intros u1 e1 H1. by destruct (fetch_all_entries env _ _ _ _ Hall H1).
Qed.

(** The keys of the entries [cache.addAll] stores are URLs of static
    assets. *)
Lemma entry_is_asset entries u e :
  fetch_all env (install_requests env) = Some entries →
  (u, e) ∈ entries → ∃ path, path ∈ STATIC_ASSETS ∧ u = asset_url env path.
Proof.
  intros Hall Hin.
  destruct (fetch_all_entries env _ _ _ _ Hall Hin) as (_ & _ & q & Hq & <-).
  by apply install_request_url.
Qed.

(** X1. Whatever fails (a fetch, the opening of the namespace, the bulk
    write), the install step is reported as successful, and the worker
    asks to skip waiting exactly once, in the listener body, before any
    caching has been done. *)
Theorem install_always_skips_waiting cs :
  let d := dispatch (on_install env) cs in
  succeeded d = true ∧
  ∃ t, effects d = [ConsoleLog "[Service Worker] Installing..."; SkipWaiting] ++ t ∧
       (SkipWaiting ∉ t).
Proof.
  intros d. subst d. rewrite install_run. cbn zeta.
  destruct (store_fails env (OpOpen CACHE_NAME));
    [|destruct (fetch_all env (install_requests env)) as [entries|];
      [destruct (store_fails env (OpAddAll CACHE_NAME))|]];
    (split; [done|]); eexists; (split; [reflexivity|]);
    unfold install_fetches, cache_failed;
    rewrite ?elem_of_app, ?elem_of_cons, ?elem_of_nil, ?list_elem_of_fmap;
    intros H;
    repeat match type of H with
      | _ ∨ _ => destruct H as [H|H]
      | False => destruct H
      | ∃ _, _ => destruct H as (? & H & _)
      | _ = _ => discriminate H
      end.
Qed.


(** X3. The install step is all or nothing: afterwards either every static
    asset is stored in the current namespace with the response of the
    network, or every entry of the storage is what it was before. *)
Theorem install_all_or_nothing cs :
  let d := dispatch (on_install env) cs in
  (∀ path, path ∈ STATIC_ASSETS →
     ∃ e, network env (asset_url env path) = Some e ∧
          Store.lookup CACHE_NAME (asset_url env path) (storage d) = Some e) ∨
  (∀ name u, Store.lookup name u (storage d) = Store.lookup name u cs).
Proof.
  intros d. subst d. rewrite install_run. cbn zeta.
  destruct (store_fails env (OpOpen CACHE_NAME)); [by right|].
  destruct (fetch_all env (install_requests env)) as [entries|] eqn:Hall;
    [destruct (store_fails env (OpAddAll CACHE_NAME))|];
    cbn [storage]; try (right; intros; apply lookup_open).
  left. intros path Hin.
  unfold Store.lookup. rewrite get_update, decide_True, get_open by done. simpl.
  by apply asset_entry.
Qed.

(** X4. The install step touches nothing but the entries of the static
    assets in the current namespace: an entry of another namespace, or of
    a URL that is no static asset, is what it was, and no namespace
    disappears. *)
Theorem install_leaves_other_entries cs name u :
  name ≠ CACHE_NAME ∨ (∀ path, path ∈ STATIC_ASSETS → u ≠ asset_url env path) →
  let d := dispatch (on_install env) cs in
  Store.lookup name u (storage d) = Store.lookup name u cs ∧
  (∀ n, n ∈ Store.keys cs → n ∈ Store.keys (storage d)).
Proof.
  intros Hother d. subst d. rewrite install_run. cbn zeta.
  assert (∀ n, n ∈ Store.keys cs → n ∈ Store.keys (Store.open CACHE_NAME cs)) as Hkeys.
  { intros n Hn. rewrite keys_open. case_decide; [done|]. apply elem_of_app. by left. }
  destruct (store_fails env (OpOpen CACHE_NAME)); [done|].
  destruct (fetch_all env (install_requests env)) as [entries|] eqn:Hall;
    [destruct (store_fails env (OpAddAll CACHE_NAME))|];
    cbn [storage]; try (split; [apply lookup_open|done]).
  split; [|intros n Hn; rewrite keys_update; by apply Hkeys].
  rewrite lookup_update. case_decide as Hname; [|apply lookup_open].
  subst name. destruct Hother as [?|Hu]; [done|].
  rewrite <- (lookup_open CACHE_NAME CACHE_NAME u cs). unfold Store.lookup.
  destruct (Store.get CACHE_NAME (Store.open CACHE_NAME cs)) as [c|]; [|done].
  simpl. apply put_all_lookup_other. intros e He.
  destruct (entry_is_asset entries u e Hall He) as (path & Hpath & ->).
  by apply (Hu path).
Qed.

(** X5. Installing twice in the same environment leaves the storage as
    installing once does. *)
Theorem install_idempotent cs :
  storage (dispatch (on_install env) (storage (dispatch (on_install env) cs)))
    = storage (dispatch (on_install env) cs).
Proof.
  rewrite !install_run. cbn zeta.
  destruct (store_fails env (OpOpen CACHE_NAME)); [done|].
  destruct (fetch_all env (install_requests env)) as [entries|] eqn:Hall;
    [destruct (store_fails env (OpAddAll CACHE_NAME))|];
    cbn [storage]; try apply open_idem.
  rewrite open_present.
  - rewrite update_update. apply update_ext. intros c. apply put_all_idem.
  - rewrite get_update, decide_True, get_open by done. by eexists.
Qed.

End InstallMore.

(** ** More on the activate listener *)

Section ActivateMore.

Variable env : Env.
Implicit Types (cs : CacheStorage) (names : list string).

Lemma current_not_doomed names : CACHE_NAME ∉ doomed env names.
Proof. unfold doomed. by intros [[? _] _]%list_elem_of_filter. Qed.

Lemma deletable_false names n :
  n ∈ names → n ≠ CACHE_NAME → store_fails env (OpDelete n) = true →
  deletable env names = false.
Proof.
  intros Hin Hne Hf. unfold deletable.
  destruct (forallb _ names) eqn:E; [|done].
  rewrite forallb_forall in E. specialize (E n).
  rewrite Hf, bool_decide_eq_false_2 in E by done.
  apply list_elem_of_In in Hin. apply E in Hin. discriminate Hin.
Qed.

Lemma filter_fmap_none {A} (P : Effect → Prop) `{!∀ e, Decision (P e)}
    (f : A → Effect) (l : list A) :
  (∀ a, ¬ P (f a)) → filter P (f <$> l) = [].
Proof.
  intros Hno. induction l as [|a l IH]; [done|].
  by rewrite fmap_cons, filter_cons_False.
Qed.

(** X6. Whatever fails, the activate step never touches the current
    namespace, creates no namespace and writes no entry: what is left is
    part of what was there. *)
Theorem activate_keeps_current cs :
  let d := dispatch (on_activate env) cs in
  Store.get CACHE_NAME (storage d) = Store.get CACHE_NAME cs ∧
  (∀ n c, (n, c) ∈ storage d → (n, c) ∈ cs) ∧
  filter is_write (effects d) = [] ∧
  filter is_fetch (effects d) = [].
Proof.
  intros d. subst d. destruct (activate_run env cs) as (o & -> & _). cbn zeta.
  destruct (store_fails env OpKeys); [done|]. cbn [storage effects].
  split; [|split].
  - unfold purge. apply get_filter_kept. intros c. apply current_not_doomed.
  - unfold purge. by intros n c [_ ?]%list_elem_of_filter.
  - unfold deletion_logs. cbn [app].
    rewrite !filter_cons_False by (by intros ?). rewrite !filter_app.
    rewrite !filter_fmap_none by (by intros ??). done.
Qed.

(** X7. A deletion that fails does not stop the others: when the
    namespaces can be enumerated, every namespace other than the current
    one whose deletion works is gone, while one whose deletion fails is
    kept as it was and makes the activate step fail. *)
Theorem activate_deletes_despite_failures cs :
  store_fails env OpKeys = false →
  let d := dispatch (on_activate env) cs in
  (∀ n, n ∈ Store.keys cs → n ≠ CACHE_NAME →
        store_fails env (OpDelete n) = false → n ∉ Store.keys (storage d)) ∧
  (∀ n, n ∈ Store.keys cs → n ≠ CACHE_NAME →
        store_fails env (OpDelete n) = true →
        Store.get n (storage d) = Store.get n cs ∧ succeeded d = false).
Proof.
  intros Hk d. subst d. destruct (activate_run env cs) as (o & -> & Hok).
  rewrite Hk. cbn zeta. cbn [storage settled succeeded forallb]. split.
  - intros n Hin Hne Hf. unfold purge, Store.keys at 2.
    intros ([n' c] & -> & [Hno _]%list_elem_of_filter)%list_elem_of_fmap.
    apply Hno. unfold doomed. by apply list_elem_of_filter.
  - intros n Hin Hne Hf. split.
    + unfold purge. apply get_filter_kept. intros c. simpl.
      unfold doomed. intros [[_ ?] _]%list_elem_of_filter. congruence.
    + by rewrite Hok, (deletable_false _ n).
Qed.

(** X8. When the namespaces cannot be enumerated, nothing is deleted and
    the activate step fails, but the clients have been claimed all the
    same. *)
Theorem activate_without_enumeration cs :
  store_fails env OpKeys = true →
  let d := dispatch (on_activate env) cs in
  storage d = cs ∧ succeeded d = false ∧
  effects d = [ConsoleLog "[Service Worker] Activating..."; ClientsClaim].
Proof.
  intros Hk d. subst d. destruct (activate_run env cs) as (o & -> & _).
  by rewrite Hk.
Qed.

(** X9. Activating twice in the same environment leaves the storage as
    activating once does, whatever fails. *)
Theorem activate_idempotent cs :
  storage (dispatch (on_activate env) (storage (dispatch (on_activate env) cs)))
    = storage (dispatch (on_activate env) cs).
Proof.
  destruct (activate_run env cs) as (o & -> & _). cbn zeta.
  destruct (store_fails env OpKeys) eqn:Hk; cbn [storage].
  - destruct (activate_run env cs) as (o' & -> & _). by rewrite Hk.
  - destruct (activate_run env (purge env (Store.keys cs) cs)) as (o' & -> & _).
    rewrite Hk. cbn zeta. cbn [storage].
    unfold purge at 1. apply filter_all. intros [n c] Hin. simpl.
    apply list_elem_of_filter in Hin as [Hkept Hin]. simpl in Hkept.
    unfold doomed. intros [[Hne Hf] _]%list_elem_of_filter. apply Hkept.
    unfold doomed. apply list_elem_of_filter. repeat split; [done..|].
    unfold Store.keys. apply list_elem_of_fmap. by exists (n, c).
Qed.

End ActivateMore.

(** ** More on the fetch listener *)

Section FetchMore.

Variable env : Env.
Implicit Types (request : Request) (cs : CacheStorage) (r : Response).

(** The paths of the interceptor, one goal each, with the dispatch
    rewritten to its result. *)
Ltac interceptor_paths request cs :=
  let Hm := fresh "Hm" in let Ho := fresh "Ho" in let Hs := fresh "Hs" in
  let Hr := fresh "Hr" in let Hn := fresh "Hn" in let Hmiss := fresh "Hmiss" in
  let Hst := fresh "Hst" in let Hty := fresh "Hty" in let Hnav := fresh "Hnav" in
  let cached := fresh "cached" in let r := fresh "r" in
  destruct (decide (method request = "GET")) as [Hm|Hm];
    [|rewrite (fetch_skipped env request cs) by (by left)];
  [destruct (decide (url_origin env (url request) = location_origin env)) as [Ho|Ho];
    [|rewrite (fetch_skipped env request cs) by (by right)]|];
  [destruct (store_fails env (OpMatch (url request))) eqn:Hs;
    [rewrite (fetch_read_failure env request cs) by done|]|..];
  [|destruct (Store.match_ (url request) cs) as [cached|] eqn:Hr;
    [rewrite (fetch_hit env request cs cached) by done|]|..];
  [| |assert (misses env request cs) as Hmiss by done;
      destruct (network env (url request)) as [r|] eqn:Hn|..];
  [| |destruct (decide (status r = 200)) as [Hst|Hst];
       [destruct (decide (type r = Basic)) as [Hty|Hty]|];
       [rewrite (fetch_miss_cached env request cs r) by done;
        destruct (store_fails env (OpOpen CACHE_NAME));
          [|destruct (store_fails env (OpPut CACHE_NAME (url request)))]
       |rewrite (fetch_miss_uncached env request cs r) by (done || by right)
       |rewrite (fetch_miss_uncached env request cs r) by (done || by left)]
     |destruct (decide (mode request = "navigate")) as [Hnav|Hnav];
       [rewrite (fetch_miss_offline_navigation env request cs) by done;
        destruct (store_fails env (OpMatch (offline_url env)))
       |rewrite (fetch_miss_offline_resource env request cs) by done]
     |..].

(** X10. One fetch event causes at most one network request, and only
    for the URL of the event's request: nothing is fetched twice and
    nothing else is fetched. *)
Theorem fetch_at_most_one_request request cs :
  let d := dispatch (on_fetch env request) cs in
  filter is_fetch (effects d) = [] ∨
  filter is_fetch (effects d) = [NetFetch (url request)].
Proof.
  intros d. subst d. interceptor_paths request cs; cbn [effects answered passed_through];
    first [by left | by right].
Qed.

(** X11. The interceptor changes nothing but the entry of the request's
    URL in the current namespace: every other entry is what it was, and no
    namespace disappears. *)
Theorem fetch_leaves_other_entries request cs name u :
  name ≠ CACHE_NAME ∨ u ≠ url request →
  let d := dispatch (on_fetch env request) cs in
  Store.lookup name u (storage d) = Store.lookup name u cs ∧
  (∀ n, n ∈ Store.keys cs → n ∈ Store.keys (storage d)).
Proof.
  intros Hother d. subst d.
  assert (∀ n, n ∈ Store.keys cs → n ∈ Store.keys (Store.open CACHE_NAME cs)) as Hkeys.
  { intros n Hn. rewrite keys_open. case_decide; [done|]. apply elem_of_app. by left. }
  interceptor_paths request cs; cbn [storage answered passed_through];
    try (split; [done|done]); try (split; [apply lookup_open|done]).
  split; [|intros n Hin; rewrite keys_update; by apply Hkeys].
  rewrite lookup_update. case_decide as Hname; [|apply lookup_open].
  subst name. destruct Hother as [?|Hu]; [done|].
  rewrite <- (lookup_open CACHE_NAME CACHE_NAME u cs). unfold Store.lookup.
  destruct (Store.get CACHE_NAME (Store.open CACHE_NAME cs)) as [c|]; [|done].
  simpl. by apply lookup_insert_ne.
Qed.




End FetchMore.

(** ** The worker as a whole *)

Section Lifecycle.

Implicit Types (env : Env) (cs : CacheStorage).

Lemma NoDup_open name cs :
  NoDup (Store.keys cs) → NoDup (Store.keys (Store.open name cs)).
Proof.
  intros Hnd. rewrite keys_open. case_decide as Hin; [done|].
  apply NoDup_app. split; [done|]. split; [|apply NoDup_singleton].
  intros x Hx ->%list_elem_of_singleton. by apply Hin.
Qed.

Lemma NoDup_filter_keys (P : string * Cache → Prop) `{!∀ x, Decision (P x)} cs :
  NoDup (Store.keys cs) → NoDup (Store.keys (filter P cs)).
Proof.
  intros Hnd. apply (sublist_NoDup _ _ Hnd). unfold Store.keys.
  apply fmap_sublist, sublist_filter.
Qed.

Lemma NoDup_install env cs :
  NoDup (Store.keys cs) → NoDup (Store.keys (storage (dispatch (on_install env) cs))).
Proof.
  intros Hnd. rewrite install_run. cbn zeta.
  destruct (store_fails env (OpOpen CACHE_NAME)); [done|].
  destruct (fetch_all env (install_requests env)) as [entries|];
    [destruct (store_fails env (OpAddAll CACHE_NAME))|];
    cbn [storage]; rewrite ?keys_update; by apply NoDup_open.
Qed.

Lemma NoDup_activate env cs :
  NoDup (Store.keys cs) → NoDup (Store.keys (storage (dispatch (on_activate env) cs))).
Proof.
  intros Hnd. destruct (activate_run env cs) as (o & -> & _). cbn zeta.
  destruct (store_fails env OpKeys); [done|]. by apply NoDup_filter_keys.
Qed.

Lemma NoDup_fetch env request cs :
  NoDup (Store.keys cs) →
  NoDup (Store.keys (storage (dispatch (on_fetch env request) cs))).
Proof.
  intros Hnd.
  destruct (decide (eligible env request)) as [He|He].
  2:{ rewrite fetch_skipped; [done|]. unfold eligible in He.
      destruct (decide (method request = "GET")); [|by left].
      right. intros ?. by apply He. }
  destruct (store_fails env (OpMatch (url request))) eqn:Hs.
  { by rewrite fetch_read_failure. }
  destruct (Store.match_ (url request) cs) as [cached|] eqn:Hr.
  { by rewrite (fetch_hit env request cs cached). }
  assert (misses env request cs) as Hmiss by done.
  destruct (network env (url request)) as [r|] eqn:Hn.
  - destruct (decide (status r = 200)) as [Hst|Hst];
      [destruct (decide (type r = Basic)) as [Hty|Hty]|].
    + rewrite (fetch_miss_cached env request cs r) by done.
      destruct (store_fails env (OpOpen CACHE_NAME)); [done|].
      destruct (store_fails env (OpPut CACHE_NAME (url request)));
        cbn [storage answered]; rewrite ?keys_update; by apply NoDup_open.
    + rewrite (fetch_miss_uncached env request cs r); [done..|by right].
    + rewrite (fetch_miss_uncached env request cs r); [done..|by left].
  - destruct (decide (mode request = "navigate")).
    + rewrite fetch_miss_offline_navigation by done.
      by destruct (store_fails env (OpMatch (offline_url env))).
    + by rewrite fetch_miss_offline_resource.
Qed.

(** X15. Through any sequence of install, activate and fetch events, in
    whatever environments, the worker keeps two invariants of the cache
    storage: every stored entry has a success status, and the namespace
    names are distinct. *)
Theorem worker_keeps_storage_sound (script : list (Env * Message)) cs :
  stored_ok cs → NoDup (Store.keys cs) →
  stored_ok (run script cs) ∧ NoDup (Store.keys (run script cs)).
Proof.
  revert cs. induction script as [|[env m] script IH]; intros cs Hok Hnd; [done|].
  simpl. apply IH; destruct m; simpl.
  - by apply stored_ok_install.
  - by apply stored_ok_activate.
  - by apply stored_ok_fetch.
  - by apply NoDup_install.
  - by apply NoDup_activate.
  - by apply NoDup_fetch.
Qed.

(** The storage after an activate step in which nothing fails. *)
Lemma activate_storage env cs :
  activate_can_succeed env →
  storage (dispatch (on_activate env) cs)
    = filter (λ nc : string * Cache, nc.1 = CACHE_NAME) cs.
Proof.
  intros [Hk Hf]. destruct (activate_run env cs) as (o & -> & _).
  rewrite Hk. cbn zeta. cbn [storage]. by apply purge_all.
Qed.

Lemma keys_filter_current cs :
  Store.keys (filter (λ nc : string * Cache, nc.1 = CACHE_NAME) cs)
    = filter (λ n, n = CACHE_NAME) (Store.keys cs).
Proof.
  unfold Store.keys. induction cs as [|[n c] cs IH]; [done|].
  rewrite fmap_cons, !filter_cons. simpl.
  case_decide; [rewrite fmap_cons|]; simpl; by rewrite IH.
Qed.

(** X16. After an install step that could open the namespace and an
    activate step in which nothing fails, the current namespace is the
    only namespace of the storage, whatever namespaces were there and
    whether or not the assets could be fetched. *)
Theorem rollout_leaves_one_namespace env cs :
  store_fails env (OpOpen CACHE_NAME) = false →
  activate_can_succeed env →
  NoDup (Store.keys cs) →
  Store.keys (rollout env cs) = [CACHE_NAME].
Proof.
  intros Ho Hact Hnd. unfold rollout.
  rewrite activate_storage, keys_filter_current by done.
  assert (Store.keys (storage (dispatch (on_install env) cs))
          = Store.keys (Store.open CACHE_NAME cs)) as ->.
  { rewrite install_run, Ho. cbn zeta.
    destruct (fetch_all env (install_requests env)) as [entries|];
      [destruct (store_fails env (OpAddAll CACHE_NAME))|];
      cbn [storage]; by rewrite ?keys_update. }
  apply filter_eq_NoDup; [by apply NoDup_open|].
  apply get_is_Some_keys. rewrite get_open. by eexists.
Qed.




End Lifecycle.

(** ** The further properties, checked on the scenarios *)

Section CheckedMore.

Import Scenario Failing.




Lemma install_leaves_other_entries_witness :
  let d := dispatch (on_install online) stale in
  "quang-hugo-v0" ≠ CACHE_NAME ∧
  Store.lookup "quang-hugo-v0" (site +:+ "/") (storage d)
    = Store.lookup "quang-hugo-v0" (site +:+ "/") stale ∧
  (∀ n, n ∈ Store.keys stale → n ∈ Store.keys (storage d)).
Proof.
  assert ("quang-hugo-v0" ≠ CACHE_NAME) as Hne by (intros H; discriminate H).
  split; [exact Hne|].
  exact (install_leaves_other_entries online stale "quang-hugo-v0" (site +:+ "/")
           (or_introl Hne)).
Defined.

Lemma activate_deletes_despite_failures_witness :
  let d := dispatch (on_activate undeletable) crowded in
  store_fails undeletable OpKeys = false ∧
  ("comments" ∉ Store.keys (storage d)) ∧
  Store.get "quang-hugo-v0" (storage d) = Store.get "quang-hugo-v0" crowded ∧
  succeeded d = false.
Proof.
  intros d.
  destruct (activate_deletes_despite_failures undeletable crowded eq_refl)
    as [Hgone Hkept].
  split; [reflexivity|]. split.
  - apply (Hgone "comments"); [|intros H; discriminate H|reflexivity].
    right. left.
  - apply (Hkept "quang-hugo-v0"); [|intros H; discriminate H|reflexivity].
    left.
Defined.

Lemma activate_without_enumeration_witness :
  let d := dispatch (on_activate unlistable) crowded in
  store_fails unlistable OpKeys = true ∧
  storage d = crowded ∧ succeeded d = false ∧
  effects d = [ConsoleLog "[Service Worker] Activating..."; ClientsClaim].
Proof.
  split; [reflexivity|].
  exact (activate_without_enumeration unlistable crowded eq_refl).
Defined.

Lemma fetch_leaves_other_entries_witness :
  let request := get "/about" in
  let d := dispatch (on_fetch online request) installed in
  offline_url online ≠ url request ∧
  Store.lookup CACHE_NAME (offline_url online) (storage d)
    = Store.lookup CACHE_NAME (offline_url online) installed ∧
  (∀ n, n ∈ Store.keys installed → n ∈ Store.keys (storage d)).
Proof.
  intros request d.
  assert (offline_url online ≠ url request) as Hne by (intros H; discriminate H).
  split; [exact Hne|].
  exact (fetch_leaves_other_entries online request installed CACHE_NAME
           (offline_url online) (or_intror Hne)).
Defined.




Lemma worker_keeps_storage_sound_witness :
  let script := [(online, Install); (online, Activate);
                 (offline, Fetch (navigate "/about"))] in
  stored_ok (run script []) ∧ NoDup (Store.keys (run script [])).
Proof.
  intros script.
  assert (stored_ok []) as Hok by (intros name c u r Hin; by apply elem_of_nil in Hin).
  exact (worker_keeps_storage_sound script [] Hok (NoDup_nil_2 : NoDup (Store.keys []))).
Defined.

Lemma rollout_leaves_one_namespace_witness :
  NoDup (Store.keys crowded) ∧
  Store.keys (rollout logo_missing crowded) = [CACHE_NAME].
Proof.
  assert (NoDup (Store.keys crowded)) as Hnd
    by (apply (bool_decide_unpack _); vm_compute; exact I).
  split; [exact Hnd|].
  apply (rollout_leaves_one_namespace logo_missing crowded eq_refl); [|exact Hnd].
  split; [reflexivity|]. intros n. reflexivity.
Defined.



End CheckedMore.
